(** * Salary dashboard (app.py): loader, filter and aggregates

    A shallow embedding of the data pipeline of [app.py]:

      - [carregar_dados]: schema validation, dtype coercion and text
        sanitization of the table read from the CSV;
      - [df_filtrado]: the boolean-mask filter driven by the four sidebar
        selections;
      - the KPIs and the derived tables ([top_cargos], [media_pais], ...).

    Conventions of the model.

      - A Python [str] is a list of Unicode code points ([pystr]); [len],
        slicing and [strip] work per code point, as in Python.
      - Column labels are only ever compared for equality and are kept as
        [string]s.
      - The table read from the CSV is a map from column label to a column of
        untyped cells ([value]); after a successful load every column has its
        declared dtype, and the rest of the script works on typed rows
        ([registro]).
      - [usd] is a float64 column: its cells are IEEE binary64 numbers
        ([PrimFloat.float]), NaN included, since line 51 lets an empty cell
        through as NaN, and every sum and quotient is rounded as the
        hardware rounds it.  The grouped mean follows pandas 2.x
        ([group_mean]: NaN cells skipped, compensated sum over count).  The
        order in which numpy adds the cells for [Series.mean()] is numpy's
        own and is a parameter ([np_sum]).
      - pandas calls follow the element-wise behaviour of object-dtype
        columns (pandas 1.x/2.x): [astype(str)] applies [str()] to every
        cell, and the [.str] methods give NaN on a cell that is not a [str]. *)

From Stdlib Require Import Floats.
From stdpp Require Import base numbers list sorting strings gmap.

Local Open Scope list_scope.

(** ** Python strings *)

Module PyStr.

(** A [str]: the sequence of its code points. *)
Abbreviation pystr := (list N).

(** An ASCII literal as a [str]. *)
Definition py (s : string) : pystr :=
  map Ascii.N_of_ascii (String.list_ascii_of_string s).

Definition LT : N := 60%N.   (* '<' *)
Definition GT : N := 62%N.   (* '>' *)

(** [Py_UNICODE_ISSPACE]: the code points that [str.strip()] removes when
    it is called without argument. *)
Definition is_space (c : N) : bool :=
  ((9 <=? c) && (c <=? 13) || (28 <=? c) && (c <=? 32)
   || (c =? 133) || (c =? 160) || (c =? 5760)
   || (8192 <=? c) && (c <=? 8202)
   || (c =? 8232) || (c =? 8233) || (c =? 8239) || (c =? 8287)
   || (c =? 12288))%N.

(** [s[start:stop]] for non-negative bounds. *)
Definition slice (start stop : nat) (s : pystr) : pystr :=
  take (stop - start) (drop start s).

(** [s] repeated until [n] characters are reached. *)
Definition repetir_ate (n : nat) (s : pystr) : pystr :=
  take n (mjoin (replicate n s)).

(** [re.sub(cls, repl, s)] for a pattern that is one character class: the
    scan goes left to right and every matching character is replaced. *)
Fixpoint re_sub_class (cls : N → bool) (repl : pystr) (s : pystr) : pystr :=
  match s with
  | [] => []
  | c :: s' =>
      if cls c then repl ++ re_sub_class cls repl s'
      else c :: re_sub_class cls repl s'
  end.

(** The class [[<>]]. *)
Definition angle (c : N) : bool := ((c =? LT) || (c =? GT))%N.

(** [str.lstrip()], [str.rstrip()] and [str.strip()]: CPython moves a left
    index forward, then a right index backward, over whitespace. *)
Fixpoint lstrip (s : pystr) : pystr :=
  match s with
  | [] => []
  | c :: s' => if is_space c then lstrip s' else s
  end.

Fixpoint rstrip (s : pystr) : pystr :=
  match s with
  | [] => []
  | c :: s' =>
      match rstrip s' with
      | [] => if is_space c then [] else [c]
      | r => c :: r
      end
  end.

Definition strip (s : pystr) : pystr := rstrip (lstrip s).

(** A string that does not start with whitespace. *)
Definition starts_clean (s : pystr) : Prop :=
  match s with [] => True | c :: _ => is_space c = false end.

(** Comparison of two [str]: lexicographic on code points. *)
Fixpoint compare (a b : pystr) : comparison :=
  match a, b with
  | [], [] => Eq
  | [], _ :: _ => Lt
  | _ :: _, [] => Gt
  | x :: a', y :: b' =>
      match N.compare x y with
      | Eq => compare a' b'
      | o => o
      end
  end.

Definition str_lt (a b : pystr) : Prop := compare a b = Lt.

End PyStr.
Import PyStr.

(** ** Cells and columns of the table read from the CSV *)

(** A cell of an object column: a [str], the missing value NaN, or any other
    Python object (an int, a float, a bool), which the script only ever
    converts with [str()]; [shown] is the text [str()] gives for it. *)
Inductive value :=
  | VStr (s : pystr)
  | VNaN
  | VOther (shown : pystr).

Global Instance value_eq_dec : EqDecision value.
Proof. solve_decision. Defined.

Definition is_str (v : value) : bool :=
  match v with VStr _ => true | _ => false end.

(** Python's [str(v)]. *)
Definition py_str (v : value) : pystr :=
  match v with
  | VStr s => s
  | VNaN => py "nan"
  | VOther shown => shown
  end.

Abbreviation Series := (list value).

(** [col.astype(str)]. *)
Definition astype_str (col : Series) : Series :=
  (λ v, VStr (py_str v)) <$> col.

(** A [.str] method: applied to the cells that are [str], NaN elsewhere. *)
Definition str_method (f : pystr → pystr) (col : Series) : Series :=
  (λ v, match v with VStr s => VStr (f s) | _ => VNaN end) <$> col.

Definition str_slice (start stop : nat) : Series → Series :=
  str_method (slice start stop).

Definition str_replace_class (cls : N → bool) (repl : pystr) : Series → Series :=
  str_method (re_sub_class cls repl).

Definition str_strip : Series → Series := str_method strip.

(** Lines 60-66: the chain applied to one text column. *)
Definition sanitizar (col : Series) : Series :=
  str_strip (str_replace_class angle [] (str_slice 0 100 (astype_str col))).

(** ** The Sanitizer as the specification words it *)

Module SanitizerSpec.

(** (1) the first 100 characters. *)
Definition truncate (s : pystr) : pystr := firstn 100 s.

(** (2) every literal '<' and '>' removed. *)
Definition remove_angle (s : pystr) : pystr :=
  List.filter (λ c, negb ((c =? LT)%N || (c =? GT)%N)) s.

(** (3) leading and trailing whitespace stripped. *)
Fixpoint drop_leading (s : pystr) : pystr :=
  match s with
  | c :: s' => if is_space c then drop_leading s' else s
  | [] => []
  end.

Definition trim (s : pystr) : pystr :=
  rev (drop_leading (rev (drop_leading s))).

Definition sanitize (s : pystr) : pystr :=
  trim (remove_angle (truncate s)).

End SanitizerSpec.

(** ** Exceptions and the two ways the script ends *)

Inductive dtype := Int64 | Float64 | Object.

(** The exceptions of the model.  The [ValueError] of line 48 carries the
    f-string of its message: the fixed text and the set formatted after it. *)
Inductive exn :=
  | ReadError
  | ValueError (texto : string) (colunas : gset string)
  | CastError (coluna : string) (tipo : dtype)
  | KeyError (coluna : string)
  | IndexError.

Inductive res (A : Type) :=
  | Ok (a : A)
  | Raise (e : exn).
Arguments Ok {A} a.
Arguments Raise {A} e.

(** Sequencing: an exception of the first step ends the block. *)
Global Instance res_bind : MBind res := λ A B k m,
  match m with
  | Ok a => k a
  | Raise e => Raise e
  end.

(** ** The loader, lines 41-73 *)

Abbreviation DataFrame := (gmap string Series).

Definition COLUNAS_ESPERADAS : list (string * dtype) :=
  [ ("ano", Int64); ("senioridade", Object); ("contrato", Object);
    ("tamanho_empresa", Object); ("cargo", Object); ("usd", Float64);
    ("remoto", Object); ("residencia_iso3", Object) ].

Definition colunas_texto : list string :=
  [ "senioridade"; "contrato"; "tamanho_empresa";
    "cargo"; "remoto"; "residencia_iso3" ].

(** [df[coluna]]. *)
Definition getitem (df : DataFrame) (coluna : string) : res Series :=
  match df !! coluna with
  | Some col => Ok col
  | None => Raise (KeyError coluna)
  end.

(** [set(COLUNAS_ESPERADAS) - set(df.columns)]. *)
Definition colunas_faltantes (df : DataFrame) : gset string :=
  list_to_set (COLUNAS_ESPERADAS.*1) ∖ dom df.

(** Lines 46-48. *)
Definition validar_esquema (df : DataFrame) : res unit :=
  let faltantes := colunas_faltantes df in
  if decide (faltantes = ∅) then Ok tt
  else Raise (ValueError "Colunas ausentes no dataset: " faltantes).

Section Loader.

(** numpy's conversion of one cell to int64 or float64, which fails on a
    cell it cannot convert. *)
Variable cast : dtype → value → option value.

(** [col.astype(tipo, errors="raise")]. *)
Definition astype (coluna : string) (tipo : dtype) (col : Series) : res Series :=
  match tipo with
  | Object => Ok col
  | _ =>
      match mapM (cast tipo) col with
      | Some col' => Ok col'
      | None => Raise (CastError coluna tipo)
      end
  end.

(** Lines 50-51. *)
Fixpoint coagir (items : list (string * dtype)) (df : DataFrame) : res DataFrame :=
  match items with
  | [] => Ok df
  | (coluna, tipo) :: items' =>
      col ← getitem df coluna ;
      col' ← astype coluna tipo col ;
      coagir items' (<[coluna := col']> df)
  end.

(** Lines 59-66. *)
Fixpoint sanitizar_colunas (cols : list string) (df : DataFrame) : res DataFrame :=
  match cols with
  | [] => Ok df
  | col :: cols' =>
      c ← getitem df col ;
      sanitizar_colunas cols' (<[col := sanitizar c]> df)
  end.

(** The body of the [try]. *)
Definition carregar (lido : res DataFrame) : res DataFrame :=
  df ← lido ;
  validar_esquema df ;;
  df ← coagir COLUNAS_ESPERADAS df ;
  sanitizar_colunas colunas_texto df.

(** What a call of [carregar_dados] does: it returns the table, or it shows
    the exception and stops the script ([st.stop()]) without returning. *)
Inductive saida :=
  | Retorna (df : DataFrame)
  | Parou (mostrado : exn).

Definition carregar_dados (lido : res DataFrame) : saida :=
  match carregar lido with
  | Ok df => Retorna df
  | Raise e => Parou e
  end.

End Loader.

(** ** Sample tables *)

Module Exemplos.

Definition uma_coluna (nome : string) : string * Series :=
  (nome, [VStr (py " <a b> "); VNaN]).

(** A table with the eight expected columns and one more. *)
Definition lido : DataFrame :=
  list_to_map
    (("ano", [VOther (py "2023"); VOther (py "2024")]) ::
     ("usd", [VOther (py "100000.0"); VNaN]) ::
     ("extra", [VNaN; VNaN]) ::
     (uma_coluna <$> colunas_texto)).

(** What the loader returns for [lido] when every numeric cell converts. *)
Definition carregado : DataFrame :=
  list_to_map
    (("ano", [VOther (py "2023"); VOther (py "2024")]) ::
     ("usd", [VOther (py "100000.0"); VNaN]) ::
     ("extra", [VNaN; VNaN]) ::
     ((λ nome, (nome, [VStr (py "a b"); VStr (py "nan")])) <$> colunas_texto)).

(** The same table without its [usd] column. *)
Definition sem_usd : DataFrame := delete "usd" lido.

End Exemplos.

(** ** The loaded table, row by row *)

Record registro := {
  ano : Z;
  senioridade : pystr;
  contrato : pystr;
  tamanho_empresa : pystr;
  cargo : pystr;
  usd : float;
  remoto : pystr;
  residencia_iso3 : pystr
}.

(** The four lists returned by the sidebar multiselects. *)
Record selecao := {
  anos_sel : list Z;
  senioridades_sel : list pystr;
  contratos_sel : list pystr;
  tamanhos_sel : list pystr
}.

(** ** The filter, lines 104-109 *)

(** [col.isin(vals)]: one boolean per row. *)
Definition isin {A} `{EqDecision A} (col vals : list A) : list bool :=
  (λ x, bool_decide (x ∈ vals)) <$> col.

(** [m1 & m2] on two masks of the same table. *)
Definition mask_and (m1 m2 : list bool) : list bool := zip_with andb m1 m2.

(** [df[mask]]: the rows whose mask entry is [True], in order. *)
Fixpoint getitem_mask {A} (df : list A) (mask : list bool) : list A :=
  match df, mask with
  | r :: df', b :: mask' =>
      if b then r :: getitem_mask df' mask' else getitem_mask df' mask'
  | _, _ => []
  end.

Definition mascara (df : list registro) (sel : selecao) : list bool :=
  mask_and
    (mask_and
       (mask_and (isin (ano <$> df) (anos_sel sel))
                 (isin (senioridade <$> df) (senioridades_sel sel)))
       (isin (contrato <$> df) (contratos_sel sel)))
    (isin (tamanho_empresa <$> df) (tamanhos_sel sel)).

Definition df_filtrado (df : list registro) (sel : selecao) : list registro :=
  getitem_mask df (mascara df sel).

(** The predicate of the specification: every filterable field is a member of
    its allowed values. *)
Definition passa (sel : selecao) (r : registro) : Prop :=
  ano r ∈ anos_sel sel ∧ senioridade r ∈ senioridades_sel sel ∧
  contrato r ∈ contratos_sel sel ∧ tamanho_empresa r ∈ tamanhos_sel sel.

Global Instance passa_dec sel r : Decision (passa sel r).
Proof. unfold passa. apply _. Defined.

(** ** float64 *)

(** [x != x]: the test for NaN. *)
Definition isnan (x : float) : bool := negb (PrimFloat.eqb x x).

(** The float64 of a count. *)
Definition f64_of_nat (n : nat) : float :=
  PrimFloat.of_uint63 (Uint63.of_Z (Z.of_nat n)).

(** ** Series and group-by primitives *)

(** [Series.mean()] ([nanops.nanmean]): the NaN cells count as 0 in the sum
    and are left out of the count; NaN when no cell counts.  [np_sum] is
    numpy's sum of a float64 array. *)
Definition series_mean (np_sum : list float → float) (l : list float) : float :=
  match length (filter (λ x, isnan x = false) l) with
  | 0 => nan
  | count =>
      PrimFloat.div (np_sum ((λ x, if isnan x then 0%float else x) <$> l))
                    (f64_of_nat count)
  end.

(** [np.maximum] on two numbers: the first unless the second is above it. *)
Definition f64_maximum (a b : float) : float :=
  if PrimFloat.leb b a then a else b.

(** [Series.max()] ([nanops.nanmax]): the NaN cells count as minus infinity;
    NaN when no cell counts. *)
Definition series_max (l : list float) : float :=
  match filter (λ x, isnan x = false) l with
  | [] => nan
  | _ =>
      match (λ x, if isnan x then neg_infinity else x) <$> l with
      | [] => nan
      | x :: xs => foldl f64_maximum x xs
      end
  end.

(** One step of a grouped aggregation: the groups are kept sorted by key;
    a new key enters with [ini], a known key has its accumulator updated. *)
Fixpoint upsert {V} (k : pystr) (ini : V) (upd : V → V)
    (gs : list (pystr * V)) : list (pystr * V) :=
  match gs with
  | [] => [(k, ini)]
  | (k', v) :: gs' =>
      match PyStr.compare k k' with
      | Lt => (k, ini) :: gs
      | Eq => (k', upd v) :: gs'
      | Gt => (k', v) :: upsert k ini upd gs'
      end
  end.

(** A pass over the rows, in row order. *)
Definition passo {X V} (ini : X → V) (upd : X → V → V)
    (gs : list (pystr * V)) (kx : pystr * X) : list (pystr * V) :=
  upsert kx.1 (ini kx.2) (upd kx.2) gs.

Definition agregar {X V} (ini : X → V) (upd : X → V → V)
    (rows : list (pystr * X)) : list (pystr * V) :=
  foldl (passo ini upd) [] rows.

(** The values of the rows whose key is [k], in row order. *)
Definition valores {X} (k : pystr) (rows : list (pystr * X)) : list X :=
  (filter (λ kx, kx.1 = k) rows).*2.

(** The accumulator of one key after its values [xs] went through the pass,
    starting from [o]. *)
Definition dobrar {X V} (ini : X → V) (upd : X → V → V)
    (o : option V) (xs : list X) : option V :=
  foldl (λ o x, Some (from_option (upd x) (ini x) o)) o xs.

(** The accumulators of pandas' [group_mean] for one group: the number of
    cells counted, their running sum and the compensation of the sum. *)
Record acum := {
  nobs : nat;
  sumx : float;
  compensation : float
}.

Definition acum_zero : acum :=
  {| nobs := 0; sumx := 0%float; compensation := 0%float |}.

(** One cell enters its group: a NaN cell is skipped; otherwise the count
    goes up and the cell is added by Kahan's compensated step, a NaN
    compensation (an infinite cell) being reset to 0. *)
Definition acum_add (a : acum) (val : float) : acum :=
  if isnan val then a
  else
    let y := PrimFloat.sub val (compensation a) in
    let t := PrimFloat.add (sumx a) y in
    let c := PrimFloat.sub (PrimFloat.sub t (sumx a)) y in
    {| nobs := S (nobs a);
       sumx := t;
       compensation := if isnan c then 0%float else c |}.

(** The mean of a group: NaN when no cell was counted. *)
Definition acum_mean (a : acum) : float :=
  match nobs a with
  | 0 => nan
  | n => PrimFloat.div (sumx a) (f64_of_nat n)
  end.

(** The mean of a list of cells as the grouped aggregation computes it. *)
Definition media (l : list float) : float :=
  acum_mean (foldl acum_add acum_zero l).

(** [groupby(key)[val].mean()]: one pass over the rows, each cell entering
    the accumulators of its key; keys in sorted order. *)
Definition groupby_mean (keys : list pystr) (vals : list float)
    : list (pystr * float) :=
  prod_map id acum_mean <$>
    agregar (acum_add acum_zero) (λ x a, acum_add a x) (zip keys vals).

(** The number of rows per distinct value, keys in sorted order. *)
Definition contagens (col : list pystr) : list (pystr * nat) :=
  agregar (λ _, 1) (λ _ n, S n) ((λ k, (k, tt)) <$> col).

(** [Series.mode()]: the most frequent values, sorted. *)
Definition mode (col : list pystr) : list pystr :=
  let cs := contagens col in
  let mx := foldr Nat.max 0 (cs.*2) in
  (filter (λ kn, kn.2 = mx) cs).*1.

(** [s.iloc[0]]. *)
Definition iloc0 {A} (s : list A) : res A :=
  match s with
  | x :: _ => Ok x
  | [] => Raise IndexError
  end.

(** Stable insertion sort: [x] goes before the first [y] with [leb x y]. *)
Fixpoint inserir {A} (leb : A → A → bool) (x : A) (l : list A) : list A :=
  match l with
  | [] => [x]
  | y :: l' => if leb x y then x :: l else y :: inserir leb x l'
  end.

Definition ordenar {A} (leb : A → A → bool) (l : list A) : list A :=
  foldr (inserir leb) [] l.

Definition por_valor_asc {K} (a b : K * float) : bool := PrimFloat.leb a.2 b.2.
Definition por_valor_desc {K} (a b : K * float) : bool := PrimFloat.leb b.2 a.2.

(** [s.dropna()] and the lines it drops. *)
Definition dropna {K} (s : list (K * float)) : list (K * float) :=
  filter (λ a, isnan a.2 = false) s.
Definition so_nan {K} (s : list (K * float)) : list (K * float) :=
  filter (λ a, isnan a.2 = true) s.

(** [s.nlargest(n)]: the lines with a value in descending order, the first
    occurrence winning a tie, then the NaN lines; the first [n] of them. *)
Definition nlargest {K} (n : nat) (s : list (K * float)) : list (K * float) :=
  take n (ordenar por_valor_desc (dropna s) ++ so_nan s).

(** [s.sort_values()]: the lines with a value in ascending order, then the
    NaN lines ([na_position="last"]).  The order pandas gives to equal
    values is not fixed; the model keeps them in their incoming order. *)
Definition sort_values {K} (s : list (K * float)) : list (K * float) :=
  ordenar por_valor_asc (dropna s) ++ so_nan s.

(** [s.value_counts()]: counts per distinct value in order of first
    appearance, then sorted by descending count. *)
Fixpoint contar (k : pystr) (cs : list (pystr * nat)) : list (pystr * nat) :=
  match cs with
  | [] => [(k, 1)]
  | (k', n) :: cs' =>
      if decide (k = k') then (k', S n) :: cs' else (k', n) :: contar k cs'
  end.

Definition value_counts (col : list pystr) : list (pystr * nat) :=
  ordenar (λ a b, b.2 <=? a.2) (foldl (λ cs k, contar k cs) [] col).

(** ** The page, lines 125-218 *)

Definition MAX_LINHAS_TABELA : nat := 1000.

Definition TRACO : pystr := [8212%N].   (* the em dash of line 132 *)

Definition DATA_SCIENTIST : pystr := py "Data Scientist".

Record kpis := {
  salario_medio : float;
  salario_max : float;
  total : nat;
  cargo_freq : pystr
}.

(** Lines 125-132. *)
Definition metricas (np_sum : list float → float) (df : list registro) : res kpis :=
  match df with
  | [] =>
      Ok {| salario_medio := 0%float; salario_max := 0%float;
            total := 0; cargo_freq := TRACO |}
  | _ =>
      freq ← iloc0 (mode (cargo <$> df));
      Ok {| salario_medio := series_mean np_sum (usd <$> df);
            salario_max := series_max (usd <$> df);
            total := length df;
            cargo_freq := freq |}
  end.

(** Lines 150-157; [None] when the chart is skipped. *)
Definition top_cargos (df : list registro) : option (list (pystr * float)) :=
  match df with
  | [] => None
  | _ => Some (sort_values (nlargest 10 (groupby_mean (cargo <$> df) (usd <$> df))))
  end.

(** Lines 170-177: the column handed to the histogram and its [nbins]. *)
Definition histograma (df : list registro) : option (list float * nat) :=
  match df with
  | [] => None
  | _ => Some (usd <$> df, 30)
  end.

(** Lines 183-185. *)
Definition remoto_contagem (df : list registro) : option (list (pystr * nat)) :=
  match df with
  | [] => None
  | _ => Some (value_counts (remoto <$> df))
  end.

(** Line 197. *)
Definition df_ds (df : list registro) : list registro :=
  getitem_mask df ((λ c, bool_decide (c = DATA_SCIENTIST)) <$> (cargo <$> df)).

(** Lines 198-203. *)
Definition media_pais (df : list registro) : option (list (pystr * float)) :=
  match df_ds df with
  | [] => None
  | ds => Some (groupby_mean (residencia_iso3 <$> ds) (usd <$> ds))
  end.

Record pagina := {
  pg_kpis : kpis;
  pg_top_cargos : option (list (pystr * float));
  pg_histograma : option (list float * nat);
  pg_remoto : option (list (pystr * nat));
  pg_media_pais : option (list (pystr * float));
  pg_tabela : list registro
}.

(** Everything the script derives from the filtered table, top to bottom. *)
Definition renderizar (np_sum : list float → float) (df : list registro)
    : res pagina :=
  k ← metricas np_sum df;
  Ok {| pg_kpis := k;
        pg_top_cargos := top_cargos df;
        pg_histograma := histograma df;
        pg_remoto := remoto_contagem df;
        pg_media_pais := media_pais df;
        pg_tabela := take MAX_LINHAS_TABELA df |}.

(** ** The aggregates as the specification words them *)

(** The salaries of the rows of [df] that satisfy [P], in row order. *)
Definition salarios (P : registro → Prop) `{∀ r, Decision (P r)}
    (df : list registro) : list float :=
  usd <$> filter P df.

(** The mean salary of a role over the view. *)
Definition media_do_cargo (df : list registro) (c : pystr) : float :=
  media (salarios (λ r, cargo r = c) df).




(** The top-10 table as the specification states it: the roles of largest
    mean, each with its mean, in ascending order of the mean. *)
Definition top_cargos_como_especificado (df : list registro) : Prop :=
  match top_cargos df with
  | None => df = []
  | Some t =>
      df ≠ [] ∧
      NoDup t.*1 ∧
      length t = 10 `min` length (remove_dups (cargo <$> df)) ∧
      Forall (λ cm, cm.1 ∈ cargo <$> df ∧ cm.2 = media_do_cargo df cm.1) t ∧
      Sorted (λ a b, PrimFloat.leb a.2 b.2 = true) t ∧
      Forall (λ c, c ∈ t.*1 ∨
                   Forall (λ cm, PrimFloat.leb (media_do_cargo df c) cm.2 = true) t)
             (cargo <$> df)
  end.


(** ** Sample rows *)

Module Import ExemplosLinhas.

(** Row [r] with its role, salary and country replaced. *)
Definition com (r : registro) (c : pystr) (u : float) (p : pystr) : registro :=
  {| ano := ano r; senioridade := senioridade r; contrato := contrato r;
     tamanho_empresa := tamanho_empresa r; cargo := c; usd := u;
     remoto := remoto r; residencia_iso3 := p |}.

(** The three rows of the per-country scenario; the fields the scenario
    leaves open come from [r1], [r2] and [r3]. *)
Definition cenario (r1 r2 r3 : registro) : list registro :=
  [ com r1 DATA_SCIENTIST 100000%float (py "USA");
    com r2 DATA_SCIENTIST 120000%float (py "BRA");
    com r3 (py "Engineer") 90000%float (py "USA") ].

Definition base : registro :=
  {| ano := 2023; senioridade := py "senior"; contrato := py "integral";
     tamanho_empresa := py "grande"; cargo := []; usd := 0%float;
     remoto := py "remoto"; residencia_iso3 := [] |}.

Definition tabela : list registro := cenario base base base.

(** A view in which one role has a salary and the other has none. *)
Definition um_sem_salario : list registro :=
  [ com base (py "Engineer") 5%float (py "USA");
    com base (py "Analyst") nan (py "USA") ].


(** Three Data Scientists of one country whose mean is not a float64. *)
Definition tres_ds : list registro :=
  [ com base DATA_SCIENTIST 100000%float (py "USA");
    com base DATA_SCIENTIST 110000%float (py "USA");
    com base DATA_SCIENTIST 100000%float (py "USA") ].

(** A left-to-right sum, one of the orders [np_sum] can stand for. *)
Definition soma_em_ordem (l : list float) : float :=
  foldl PrimFloat.add 0%float l.

End ExemplosLinhas.

Global Instance dtype_eq_dec : EqDecision dtype.
Proof. solve_decision. Defined.

(** ** The sidebar, lines 83-99 *)

(** [col.unique()]: the distinct values in order of first appearance; a
    value already seen is skipped. *)
Definition unique {A} `{EqDecision A} (col : list A) : list A :=
  foldl (λ vistos x, if decide (x ∈ vistos) then vistos else vistos ++ [x])
        [] col.

(** [a <= b] on two [str]. *)
Definition str_leb (a b : pystr) : bool :=
  match PyStr.compare a b with
  | Gt => false
  | _ => true
  end.

(** [sorted(...)] of a list of ints and of a list of [str]. *)
Definition sorted_int (l : list Z) : list Z := ordenar Z.leb l.
Definition sorted_str (l : list pystr) : list pystr := ordenar str_leb l.

(** The options offered by the four multiselects. *)
Definition anos (df : list registro) : list Z :=
  sorted_int (unique (ano <$> df)).
Definition senioridades (df : list registro) : list pystr :=
  sorted_str (unique (senioridade <$> df)).
Definition contratos (df : list registro) : list pystr :=
  sorted_str (unique (contrato <$> df)).
Definition tamanhos (df : list registro) : list pystr :=
  sorted_str (unique (tamanho_empresa <$> df)).

(** What the multiselects return while no control is touched: each
    [default=] is the full list of options. *)
Definition selecao_padrao (df : list registro) : selecao :=
  {| anos_sel := anos df; senioridades_sel := senioridades df;
     contratos_sel := contratos df; tamanhos_sel := tamanhos df |}.

(** The number of rows of [col] that hold [k]. *)
Definition ocorrencias (k : pystr) (col : list pystr) : nat :=
  length (filter (λ x, x = k) col).

(** The page shown for an empty view, lines 131-132 and the skipped charts. *)
Definition pagina_vazia : pagina :=
  {| pg_kpis := {| salario_medio := 0%float; salario_max := 0%float;
                   total := 0; cargo_freq := TRACO |};
     pg_top_cargos := None; pg_histograma := None; pg_remoto := None;
     pg_media_pais := None; pg_tabela := [] |}.

(** ** Facts about Python strings *)

Section StrFacts.
Implicit Types (s : pystr) (c : N).

Lemma length_lstrip s : length (lstrip s) ≤ length s.
Proof. induction s as [|c s IH]; simpl; [lia|]. destruct (is_space c); simpl; lia. Qed.

Lemma length_rstrip s : length (rstrip s) ≤ length s.
Proof.
  induction s as [|c s IH]; simpl; [lia|].
  destruct (rstrip s); [destruct (is_space c)|]; simpl in *; lia.
Qed.

Lemma length_strip s : length (strip s) ≤ length s.
Proof. unfold strip. pose proof (length_rstrip (lstrip s)). pose proof (length_lstrip s). lia. Qed.

Lemma lstrip_sublist s : lstrip s `sublist_of` s.
Proof.
  induction s as [|c s IH]; simpl; [done|].
  destruct (is_space c); [by apply sublist_cons|done].
Qed.

Lemma rstrip_sublist s : rstrip s `sublist_of` s.
Proof.
  induction s as [|c s IH]; simpl; [done|].
  destruct (rstrip s) as [|y r].
  - destruct (is_space c); [apply sublist_nil_l|]. by apply sublist_skip.
  - by apply sublist_skip.
Qed.

Lemma strip_sublist s : strip s `sublist_of` s.
Proof. unfold strip. etrans; [apply rstrip_sublist|apply lstrip_sublist]. Qed.

Lemma lstrip_starts_clean s : starts_clean (lstrip s).
Proof. induction s as [|c s IH]; simpl; [done|]. by destruct (is_space c) eqn:E. Qed.

Lemma lstrip_id s : starts_clean s → lstrip s = s.
Proof. destruct s as [|c s]; simpl; [done|]. by intros ->. Qed.

Lemma rstrip_starts_clean s : starts_clean s → starts_clean (rstrip s).
Proof.
  destruct s as [|c s]; simpl; [done|]. intros Hc.
  destruct (rstrip s); [by rewrite Hc|done].
Qed.

Lemma rstrip_idemp s : rstrip (rstrip s) = rstrip s.
Proof.
  induction s as [|c s IH]; simpl; [done|].
  destruct (rstrip s) as [|y r] eqn:E.
  - destruct (is_space c) eqn:Ec; simpl; [done|]. by rewrite Ec.
  - change (rstrip (c :: y :: r)) with
      (match rstrip (y :: r) with [] => if is_space c then [] else [c] | r' => c :: r' end).
    by rewrite IH.
Qed.

Lemma strip_idemp s : strip (strip s) = strip s.
Proof.
  unfold strip.
  rewrite (lstrip_id (rstrip (lstrip s))).
  - apply rstrip_idemp.
  - apply rstrip_starts_clean, lstrip_starts_clean.
Qed.

Lemma length_re_sub_class_nil cls s : length (re_sub_class cls [] s) ≤ length s.
Proof. induction s as [|c s IH]; simpl; [lia|]. destruct (cls c); simpl; lia. Qed.

Lemma elem_of_re_sub_class_nil cls s c :
  c ∈ re_sub_class cls [] s ↔ c ∈ s ∧ cls c = false.
Proof.
  induction s as [|d s IH]; simpl.
  - rewrite elem_of_nil. naive_solver.
  - destruct (cls d) eqn:E; simpl; rewrite ?elem_of_cons, IH.
    + split; [intros [? ?]; auto|intros [[->|?] ?]; [congruence|auto]].
    + split; [intros [->|[? ?]]; auto|intros [[->|?] ?]; auto].
Qed.

Lemma length_slice start stop s : length (slice start stop s) ≤ stop - start.
Proof. unfold slice. rewrite length_take. lia. Qed.

Lemma angle_false c : angle c = false ↔ c ≠ LT ∧ c ≠ GT.
Proof.
  unfold angle. rewrite orb_false_iff, !N.eqb_neq. done.
Qed.

(** The source's string functions against the words of the specification. *)

Lemma slice_truncate s : slice 0 100 s = SanitizerSpec.truncate s.
Proof. done. Qed.

Lemma re_sub_remove_angle s :
  re_sub_class angle [] s = SanitizerSpec.remove_angle s.
Proof.
  unfold SanitizerSpec.remove_angle.
  induction s as [|c s IH]; simpl; [done|].
  unfold angle at 1. destruct (_ || _); simpl; by rewrite IH.
Qed.

Lemma lstrip_drop_leading s : lstrip s = SanitizerSpec.drop_leading s.
Proof. induction s as [|c s IH]; simpl; [done|]. by rewrite IH. Qed.

Lemma drop_leading_snoc s c :
  SanitizerSpec.drop_leading (s ++ [c]) =
    match SanitizerSpec.drop_leading s with
    | [] => if is_space c then [] else [c]
    | r => r ++ [c]
    end.
Proof.
  induction s as [|d s IH]; simpl; [done|].
  destruct (is_space d); [done|done].
Qed.

Lemma rstrip_rev s :
  rstrip s = rev (SanitizerSpec.drop_leading (rev s)).
Proof.
  induction s as [|c s IH]; simpl; [done|].
  rewrite drop_leading_snoc, IH.
  destruct (SanitizerSpec.drop_leading (rev s)) as [|y d] eqn:E; simpl.
  - by destruct (is_space c).
  - rewrite rev_app_distr. simpl.
    destruct (rev d ++ [y]) eqn:E'; [|done].
    by apply app_eq_nil in E' as [_ ?].
Qed.

Lemma strip_trim s : strip s = SanitizerSpec.trim s.
Proof. unfold strip, SanitizerSpec.trim. by rewrite rstrip_rev. Qed.

End StrFacts.

(** ** Facts about the sanitization chain *)

Lemma sanitizar_lookup (col : Series) i v :
  col !! i = Some v →
  sanitizar col !! i = Some (VStr (SanitizerSpec.sanitize (py_str v))).
Proof.
  intros Hi. unfold sanitizar, str_strip, str_replace_class, str_slice,
    str_method, astype_str.
  rewrite !list_lookup_fmap, Hi. simpl.
  by rewrite strip_trim, re_sub_remove_angle, slice_truncate.
Qed.

Lemma length_sanitizar (col : Series) : length (sanitizar col) = length col.
Proof.
  unfold sanitizar, str_strip, str_replace_class, str_slice, str_method,
    astype_str. by rewrite !length_fmap.
Qed.

Lemma elem_of_sanitizar (col : Series) v :
  v ∈ sanitizar col →
  ∃ w, w ∈ col ∧ v = VStr (SanitizerSpec.sanitize (py_str w)).
Proof.
  intros [i Hi]%list_elem_of_lookup.
  destruct (col !! i) as [w|] eqn:Hw.
  - rewrite (sanitizar_lookup _ _ _ Hw) in Hi. injection Hi as <-.
    exists w. split; [by eapply list_elem_of_lookup_2|done].
  - apply lookup_lt_Some in Hi. apply lookup_ge_None in Hw.
    rewrite length_sanitizar in Hi. lia.
Qed.

Lemma sanitize_clean s :
  let t := SanitizerSpec.sanitize s in
  length t ≤ 100 ∧ (LT ∉ t) ∧ (GT ∉ t) ∧ strip t = t.
Proof.
  unfold SanitizerSpec.sanitize.
  rewrite <-strip_trim, <-re_sub_remove_angle, <-slice_truncate. simpl.
  split; [|split; [|split]].
  - etrans; [apply length_strip|]. etrans; [apply length_re_sub_class_nil|].
    apply (length_slice 0 100).
  - intros H. eapply elem_of_sublist in H; [|apply strip_sublist].
    apply elem_of_re_sub_class_nil in H as [_ H]. by apply angle_false in H as [? _].
  - intros H. eapply elem_of_sublist in H; [|apply strip_sublist].
    apply elem_of_re_sub_class_nil in H as [_ H]. by apply angle_false in H as [_ ?].
  - apply strip_idemp.
Qed.

(** ** Facts about the loader *)

Section LoaderFacts.
Variable cast : dtype → value → option value.

Lemma bind_Ok {A B} (m : res A) (k : A → res B) b :
  m ≫= k = Ok b → ∃ a, m = Ok a ∧ k a = Ok b.
Proof. destruct m as [a|e]; [by exists a|done]. Qed.

Lemma getitem_Ok (df : DataFrame) c col :
  getitem df c = Ok col ↔ df !! c = Some col.
Proof. unfold getitem. destruct (df !! c); naive_solver. Qed.

(** Coercion leaves an object column as it is. *)
Lemma coagir_object items (df df' : DataFrame) c :
  coagir cast items df = Ok df' →
  (∀ t, (c, t) ∈ items → t = Object) →
  df' !! c = df !! c.
Proof.
  revert df. induction items as [|[coluna tipo] items IH]; intros df; simpl.
  - by intros [= ->].
  - intros (col & Hcol%getitem_Ok & (col' & Hast & Hrec)%bind_Ok)%bind_Ok Hobj.
    rewrite (IH _ Hrec); [|intros t Ht; apply Hobj; by right].
    destruct (decide (coluna = c)) as [->|Hne].
    + rewrite (Hobj tipo) in Hast by left. injection Hast as <-.
      by rewrite lookup_insert_eq.
    + by rewrite lookup_insert_ne.
Qed.

(** Each listed column is replaced by its sanitized form. *)
Lemma sanitizar_colunas_lookup cols (df df' : DataFrame) c :
  NoDup cols →
  sanitizar_colunas cols df = Ok df' →
  c ∈ cols →
  ∃ col, df !! c = Some col ∧ df' !! c = Some (sanitizar col).
Proof.
  intros Hnd. revert df.
  assert (Hout : ∀ cols (df df' : DataFrame), sanitizar_colunas cols df = Ok df' →
                   c ∉ cols → df' !! c = df !! c).
  { clear. induction cols as [|x cols IH]; intros df df'; simpl.
    - by intros [= ->].
    - intros (col & _ & Hrec)%bind_Ok Hnin.
      apply not_elem_of_cons in Hnin as [Hne Hnin].
      rewrite (IH _ _ Hrec Hnin). by rewrite lookup_insert_ne. }
  induction Hnd as [|x cols Hx Hnd IH]; intros df; simpl.
  - intros _ []%elem_of_nil.
  - intros (col & Hcol%getitem_Ok & Hrec)%bind_Ok [->|Hin]%elem_of_cons.
    + exists col. split; [done|].
      rewrite (Hout _ _ _ Hrec Hx). by rewrite lookup_insert_eq.
    + destruct (IH _ Hrec Hin) as (col' & Hc & Hc').
      assert (x ≠ c) by (intros ->; done).
      rewrite lookup_insert_ne in Hc by done. by exists col'.
Qed.

Lemma NoDup_colunas_texto : NoDup colunas_texto.
Proof. compute_done. Qed.

Lemma colunas_texto_object c t :
  c ∈ colunas_texto → (c, t) ∈ COLUNAS_ESPERADAS → t = Object.
Proof.
  unfold colunas_texto, COLUNAS_ESPERADAS.
  rewrite !elem_of_cons, !elem_of_nil. naive_solver.
Qed.

(** A returned table holds, in each text column, the sanitized form of the
    column that was read. *)
Lemma carregar_dados_texto lido (df' : DataFrame) c :
  carregar_dados cast lido = Retorna df' →
  c ∈ colunas_texto →
  ∃ (df : DataFrame) col,
    lido = Ok df ∧ df !! c = Some col ∧ df' !! c = Some (sanitizar col).
Proof.
  unfold carregar_dados, carregar. intros Hret Hc.
  destruct (_ ≫= _) as [d|e] eqn:Hload in Hret; [|done]. injection Hret as ->.
  apply bind_Ok in Hload as (df & -> & Hload).
  apply bind_Ok in Hload as ([] & _ & Hload).
  apply bind_Ok in Hload as (df1 & Hco & Hsan).
  destruct (sanitizar_colunas_lookup _ _ _ c NoDup_colunas_texto Hsan Hc)
    as (col & Hcol & Hcol').
  exists df, col. split; [done|]. split; [|done].
  rewrite <-Hcol. symmetry. eapply coagir_object; [done|].
  intros t. by apply colunas_texto_object.
Qed.

End LoaderFacts.

Section LoaderTotal.
Variable cast : dtype → value → option value.

Lemma coagir_Ok items (df : DataFrame) :
  NoDup items.*1 →
  (∀ c t, (c, t) ∈ items →
     ∃ col, df !! c = Some col ∧ Forall (λ v, is_Some (cast t v)) col) →
  ∃ df' : DataFrame, coagir cast items df = Ok df' ∧ dom df' = dom df.
Proof.
  revert df. induction items as [|[c t] items IH]; intros df Hnd Hall; simpl.
  - by exists df.
  - apply NoDup_cons in Hnd as [Hc Hnd].
    destruct (Hall c t) as (col & Hcol & Hcast); [left|].
    unfold getitem. rewrite Hcol. simpl.
    assert (∃ col', astype cast c t col = Ok col') as [col' ->].
    { unfold astype. destruct t; [| |by eexists];
        (destruct (mapM _ col) eqn:E; [by eexists|]);
        apply eq_None_not_Some in E; destruct E; by apply mapM_is_Some. }
    simpl. destruct (IH (<[c:=col']> df) Hnd) as (df' & -> & Hdom).
    + intros c' t' Hin. destruct (Hall c' t') as (col0 & Hcol0 & Hcast0); [by right|].
      exists col0. split; [|done]. rewrite lookup_insert_ne; [done|].
      intros ->. apply Hc, (list_elem_of_fmap fst). by exists (c', t').
    + exists df'. split; [done|]. rewrite Hdom, dom_insert_L.
      apply elem_of_dom_2 in Hcol. set_solver.
Qed.

Lemma sanitizar_colunas_Ok cols (df : DataFrame) :
  (∀ c, c ∈ cols → c ∈ dom df) →
  ∃ df' : DataFrame, sanitizar_colunas cols df = Ok df'.
Proof.
  revert df. induction cols as [|c cols IH]; intros df Hall; simpl.
  - by exists df.
  - assert (c ∈ dom df) as [col Hcol]%elem_of_dom by (apply Hall; left).
    unfold getitem. rewrite Hcol. simpl. apply IH.
    intros c' Hc'. rewrite dom_insert_L. apply elem_of_union_r, Hall. by right.
Qed.

(** The loader returns a table whenever the eight expected columns are there
    and every cell of the two numeric columns converts. *)
Lemma carregar_dados_retorna (df : DataFrame) :
  (∀ c, c ∈ COLUNAS_ESPERADAS.*1 → is_Some (df !! c)) →
  (∀ c t col v, (c, t) ∈ COLUNAS_ESPERADAS → df !! c = Some col → v ∈ col →
                is_Some (cast t v)) →
  ∃ df', carregar_dados cast (Ok df) = Retorna df'.
Proof.
  intros Hcols Hcast. unfold carregar_dados, carregar.
  cbv beta iota delta [mbind res_bind].
  assert (colunas_faltantes df = ∅) as Hfalt.
  { apply set_eq. intros c. unfold colunas_faltantes.
    rewrite elem_of_difference, elem_of_list_to_set, not_elem_of_dom.
    split; [|by intros ?%not_elem_of_empty].
    intros [Hin Hnone]. apply Hcols in Hin as [x Hx]. congruence. }
  unfold validar_esquema. rewrite Hfalt, decide_True by done.
  destruct (coagir_Ok COLUNAS_ESPERADAS df) as (df1 & -> & Hdom).
  - compute_done.
  - intros c t Hin. destruct (Hcols c) as [col Hcol].
    { apply (list_elem_of_fmap fst). by exists (c, t). }
    exists col. split; [done|]. apply Forall_forall. intros v Hv. by eapply Hcast.
  - destruct (sanitizar_colunas_Ok colunas_texto df1) as [df' ->]; [|by eexists].
    intros c Hc. rewrite Hdom. apply elem_of_dom, Hcols.
    revert Hc. unfold colunas_texto, COLUNAS_ESPERADAS. simpl.
    rewrite !elem_of_cons, !elem_of_nil. naive_solver.
Qed.

End LoaderTotal.

(** ** The loader: claims *)

(** C2.  In a table returned by the loader, every value of a text column is
    a string of at most 100 characters, without '<' or '>', and equal to its
    own whitespace-trimmed form. *)
Theorem sanitized_text_invariant cast lido (df' : DataFrame) c (col : Series) v :
  carregar_dados cast lido = Retorna df' →
  c ∈ colunas_texto →
  df' !! c = Some col →
  v ∈ col →
  ∃ s, v = VStr s ∧ length s ≤ 100 ∧ (LT ∉ s) ∧ (GT ∉ s) ∧
       strip s = s ∧ SanitizerSpec.trim s = s.
Proof.
  intros Hret Hc Hcol Hv.
  destruct (carregar_dados_texto cast _ _ _ Hret Hc) as (df & col0 & _ & _ & Hcol').
  rewrite Hcol in Hcol'. injection Hcol' as ->.
  apply elem_of_sanitizar in Hv as (w & _ & ->).
  destruct (sanitize_clean (py_str w)) as (Hlen & Hlt & Hgt & Hstrip).
  eexists. split; [done|]. repeat split; try done.
  by rewrite <-strip_trim.
Qed.

Lemma sanitized_text_invariant_witness :
  ∃ s, VStr (py "a b") = VStr s ∧ length s ≤ 100 ∧ (LT ∉ s) ∧ (GT ∉ s) ∧
       strip s = s ∧ SanitizerSpec.trim s = s.
Proof.
  apply (sanitized_text_invariant (λ _ v, Some v) (Ok Exemplos.lido)
           Exemplos.carregado "cargo" [VStr (py "a b"); VStr (py "nan")]).
  - vm_compute. reflexivity.
  - apply (bool_decide_unpack _). vm_compute. reflexivity.
  - vm_compute. reflexivity.
  - apply (bool_decide_unpack _). vm_compute. reflexivity.
Defined.

(** C4.  On a string of a text column the loader applies exactly: the first
    100 characters, then the removal of every '<' and '>', then the strip of
    leading and trailing whitespace.  "Senior<script>" repeated to 150
    characters comes out with at most 100 characters and no '<' or '>'. *)
Theorem sanitizer_three_steps :
  (∀ cast (df df' : DataFrame) c (col : Series) i s,
     carregar_dados cast (Ok df) = Retorna df' →
     c ∈ colunas_texto →
     df !! c = Some col →
     col !! i = Some (VStr s) →
     ∃ col' : Series,
       df' !! c = Some col' ∧
       col' !! i = Some (VStr (SanitizerSpec.trim
                                 (SanitizerSpec.remove_angle
                                    (SanitizerSpec.truncate s))))) ∧
  (let v := repetir_ate 150 (py "Senior<script>") in
   length v = 150 ∧
   ∃ out, sanitizar [VStr v] = [VStr out] ∧
          length out ≤ 100 ∧ (LT ∉ out) ∧ (GT ∉ out) ∧
          out = mjoin (replicate 7 (py "Seniorscript")) ++ py "Se").
Proof.
  split.
  - intros cast df df' c col i s Hret Hc Hcol Hi.
    destruct (carregar_dados_texto cast _ _ _ Hret Hc) as (df0 & col0 & [= <-] & Hcol0 & Hcol').
    rewrite Hcol in Hcol0. injection Hcol0 as <-.
    exists (sanitizar col). split; [done|].
    by rewrite (sanitizar_lookup _ _ _ Hi).
  - simpl. split; [by vm_compute|].
    eexists. split; [by vm_compute|].
    split; [vm_compute; lia|].
    split; [|split]; [| |by vm_compute].
    + apply (bool_decide_unpack _). by vm_compute.
    + apply (bool_decide_unpack _). by vm_compute.
Qed.

Lemma sanitizer_three_steps_witness :
  ∃ col' : Series,
    Exemplos.carregado !! "cargo" = Some col' ∧
    col' !! 0 = Some (VStr (SanitizerSpec.trim
                             (SanitizerSpec.remove_angle
                                (SanitizerSpec.truncate (py " <a b> "))))).
Proof.
  apply (proj1 sanitizer_three_steps (λ _ v, Some v) Exemplos.lido
           Exemplos.carregado "cargo" [VStr (py " <a b> "); VNaN] 0).
  - vm_compute. reflexivity.
  - apply (bool_decide_unpack _). vm_compute. reflexivity.
  - vm_compute. reflexivity.
  - reflexivity.
Defined.

(** C8.  On a table that lacks an expected column the loader stops on the
    error of line 48, whose message carries exactly the set of the expected
    columns that are missing; no table is returned. *)
Theorem missing_columns_stop cast (df : DataFrame) c :
  c ∈ COLUNAS_ESPERADAS.*1 →
  df !! c = None →
  carregar_dados cast (Ok df) =
    Parou (ValueError "Colunas ausentes no dataset: " (colunas_faltantes df)) ∧
  (∀ x, x ∈ colunas_faltantes df ↔ x ∈ COLUNAS_ESPERADAS.*1 ∧ df !! x = None) ∧
  (∀ df', carregar_dados cast (Ok df) ≠ Retorna df').
Proof.
  intros Hc Hdf.
  assert (Hset : ∀ x, x ∈ colunas_faltantes df ↔
                      x ∈ COLUNAS_ESPERADAS.*1 ∧ df !! x = None).
  { intros x. unfold colunas_faltantes.
    rewrite elem_of_difference, elem_of_list_to_set, not_elem_of_dom. done. }
  assert (Hstop : carregar_dados cast (Ok df) =
    Parou (ValueError "Colunas ausentes no dataset: " (colunas_faltantes df))).
  { unfold carregar_dados, carregar, validar_esquema. simpl.
    destruct (decide (colunas_faltantes df = ∅)) as [He|Hne]; [|done].
    exfalso. assert (c ∈ colunas_faltantes df) as Hin by (by apply Hset).
    rewrite He in Hin. by apply not_elem_of_empty in Hin. }
  split; [done|]. split; [done|].
  intros df'. by rewrite Hstop.
Qed.

Lemma missing_columns_stop_witness :
  carregar_dados (λ _ v, Some v) (Ok Exemplos.sem_usd) =
    Parou (ValueError "Colunas ausentes no dataset: "
             (colunas_faltantes Exemplos.sem_usd)) ∧
  (∀ x, x ∈ colunas_faltantes Exemplos.sem_usd ↔
        x ∈ COLUNAS_ESPERADAS.*1 ∧ Exemplos.sem_usd !! x = None) ∧
  (∀ df', carregar_dados (λ _ v, Some v) (Ok Exemplos.sem_usd) ≠ Retorna df').
Proof.
  apply (missing_columns_stop (λ _ v, Some v) Exemplos.sem_usd "usd").
  - apply (bool_decide_unpack _). vm_compute. reflexivity.
  - vm_compute. reflexivity.
Defined.

(** C10.  After a successful load every value of the six text columns is a
    string: each cell is first converted to its string form and then
    truncated and cleaned, and a null comes out as the string "nan". *)
Theorem text_columns_are_strings cast (df df' : DataFrame) c (col : Series) :
  carregar_dados cast (Ok df) = Retorna df' →
  c ∈ colunas_texto →
  df !! c = Some col →
  ∃ col' : Series,
    df' !! c = Some col' ∧
    length col' = length col ∧
    (∀ v, v ∈ col' → is_str v = true) ∧
    (∀ i v, col !! i = Some v →
            col' !! i = Some (VStr (SanitizerSpec.sanitize (py_str v)))) ∧
    (∀ i, col !! i = Some VNaN → col' !! i = Some (VStr (py "nan"))).
Proof.
  intros Hret Hc Hcol.
  destruct (carregar_dados_texto cast _ _ _ Hret Hc) as (df0 & col0 & [= <-] & Hcol0 & Hcol').
  rewrite Hcol in Hcol0. injection Hcol0 as <-.
  exists (sanitizar col). split; [done|]. split; [apply length_sanitizar|].
  split; [|split].
  - intros v (w & _ & ->)%elem_of_sanitizar. done.
  - intros i v Hi. by apply sanitizar_lookup.
  - intros i Hi. by rewrite (sanitizar_lookup _ _ _ Hi).
Qed.

Lemma text_columns_are_strings_witness :
  ∃ col' : Series,
    Exemplos.carregado !! "cargo" = Some col' ∧
    length col' = length [VStr (py " <a b> "); VNaN] ∧
    (∀ v, v ∈ col' → is_str v = true) ∧
    (∀ i v, [VStr (py " <a b> "); VNaN] !! i = Some v →
            col' !! i = Some (VStr (SanitizerSpec.sanitize (py_str v)))) ∧
    (∀ i, [VStr (py " <a b> "); VNaN] !! i = Some VNaN →
          col' !! i = Some (VStr (py "nan"))).
Proof.
  apply (text_columns_are_strings (λ _ v, Some v) Exemplos.lido
           Exemplos.carregado "cargo").
  - vm_compute. reflexivity.
  - apply (bool_decide_unpack _). vm_compute. reflexivity.
  - vm_compute. reflexivity.
Defined.

(** ** The filter: facts and claims *)

Section MaskFacts.
Context {A : Type}.
Implicit Types (l : list A) (f g : A → bool).

Lemma mask_and_fmap f g l :
  mask_and (f <$> l) (g <$> l) = (λ x, f x && g x) <$> l.
Proof. unfold mask_and. induction l as [|x l IH]; [done|]. cbn. f_equal. apply IH. Qed.

Lemma getitem_mask_fmap f l :
  getitem_mask l (f <$> l) = filter (λ x, f x = true) l.
Proof.
  induction l as [|x l IH]; [done|].
  rewrite filter_cons. cbn. rewrite IH.
  destruct (f x); by case_decide.
Qed.

Lemma getitem_mask_sublist l (m : list bool) : getitem_mask l m `sublist_of` l.
Proof.
  revert m. induction l as [|x l IH]; intros [|b m]; simpl;
    try apply sublist_nil_l.
  destruct b; [by apply sublist_skip|by apply sublist_cons].
Qed.
End MaskFacts.

Lemma mascara_passa df sel :
  mascara df sel = (λ r, bool_decide (passa sel r)) <$> df.
Proof.
  unfold mascara, isin. rewrite <-!list_fmap_compose, !mask_and_fmap.
  apply list_fmap_ext. intros _ r _. simpl. unfold passa.
  repeat (case_bool_decide; simpl); tauto.
Qed.

Lemma df_filtrado_filter df sel : df_filtrado df sel = filter (passa sel) df.
Proof.
  unfold df_filtrado. rewrite mascara_passa, getitem_mask_fmap.
  apply list_filter_iff. intros r. by rewrite bool_decide_eq_true.
Qed.

(** C1.  The filtered view is a subsequence of the table, and each of its
    rows has every filterable field among the values selected for it. *)
Theorem filtered_view_sound df sel :
  df_filtrado df sel `sublist_of` df ∧
  Forall (λ r, ano r ∈ anos_sel sel ∧
               senioridade r ∈ senioridades_sel sel ∧
               contrato r ∈ contratos_sel sel ∧
               tamanho_empresa r ∈ tamanhos_sel sel)
         (df_filtrado df sel).
Proof.
  split; [apply getitem_mask_sublist|].
  rewrite df_filtrado_filter. apply Forall_forall.
  by intros r [Hp _]%list_elem_of_filter.
Qed.

(** C5.  When one of the four selections is empty, no row passes, whatever
    the other three are. *)
Theorem empty_selection_empty_view df sel :
  anos_sel sel = [] ∨ senioridades_sel sel = [] ∨
  contratos_sel sel = [] ∨ tamanhos_sel sel = [] →
  df_filtrado df sel = [].
Proof.
  intros Hsel. rewrite df_filtrado_filter.
  induction df as [|r df IH]; [done|].
  rewrite filter_cons_False; [done|]. intros (Ha & Hs & Hc & Ht).
  destruct Hsel as [H|[H|[H|H]]]; rewrite H in *; by eapply not_elem_of_nil.
Qed.

Lemma empty_selection_empty_view_witness :
  df_filtrado tabela
    {| anos_sel := [2023%Z]; senioridades_sel := [];
       contratos_sel := [py "integral"]; tamanhos_sel := [py "grande"] |} = [].
Proof.
  apply empty_selection_empty_view. simpl. right. left. reflexivity.
Defined.

(** C6.  Filtering the filtered view again with the same selection changes
    nothing. *)
Theorem filter_idempotent df sel :
  df_filtrado (df_filtrado df sel) sel = df_filtrado df sel.
Proof.
  rewrite !df_filtrado_filter. apply list_filter_filter_l. done.
Qed.

(** ** Order of strings *)

Section CompareFacts.
Implicit Types a b c : pystr.

Lemma compare_eq a b : PyStr.compare a b = Eq ↔ a = b.
Proof.
  revert b. induction a as [|x a IH]; intros [|y b]; simpl; try done.
  destruct (N.compare_spec x y) as [->|Hlt|Hgt].
  - rewrite IH. naive_solver.
  - split; [done|]. intros [= -> _]. lia.
  - split; [done|]. intros [= -> _]. lia.
Qed.

Lemma compare_antisym a b : PyStr.compare b a = CompOpp (PyStr.compare a b).
Proof.
  revert b. induction a as [|x a IH]; intros [|y b]; simpl; try done.
  rewrite (N.compare_antisym x y).
  destruct (N.compare x y); simpl; [apply IH|done|done].
Qed.

Lemma compare_lt_trans a b c :
  str_lt a b → str_lt b c → str_lt a c.
Proof.
  unfold str_lt. revert b c.
  induction a as [|x a IH]; intros [|y b] [|z c]; simpl; try done.
  destruct (N.compare_spec x y) as [->|Hxy|Hxy]; [| |done].
  - destruct (N.compare_spec y z) as [->|Hyz|Hyz]; [|done|done].
    apply IH.
  - intros _. destruct (N.compare_spec y z) as [->|Hyz|Hyz]; [| |done]; intros _.
    + by apply N.compare_lt_iff in Hxy as ->.
    + assert (x < z)%N as ->%N.compare_lt_iff by lia. done.
Qed.

Lemma str_lt_irrefl a : ¬ str_lt a a.
Proof. unfold str_lt. by rewrite (proj2 (compare_eq a a) eq_refl). Qed.

Lemma str_lt_trans : Transitive str_lt.
Proof. intros a b c. apply compare_lt_trans. Qed.

End CompareFacts.

(** ** Grouped aggregation *)

Section UpsertFacts.
Context {V : Type}.
Implicit Types (gs : list (pystr * V)) (k : pystr).

Lemma upsert_keys_head k ini upd gs k0 :
  HdRel str_lt k0 (gs.*1) → str_lt k0 k →
  HdRel str_lt k0 ((upsert k ini upd gs).*1).
Proof.
  destruct gs as [|[k1 v1] gs]; simpl; [by constructor|].
  intros Hhd Hk. inversion_clear Hhd.
  destruct (PyStr.compare k k1); simpl; by constructor.
Qed.

Lemma upsert_sorted k ini upd gs :
  Sorted str_lt (gs.*1) → Sorted str_lt ((upsert k ini upd gs).*1).
Proof.
  induction gs as [|[k1 v1] gs IH]; simpl; [by repeat constructor|].
  intros Hs. inversion_clear Hs as [|?? Hs' Hhd].
  destruct (PyStr.compare k k1) eqn:Hc; simpl.
  - by constructor.
  - constructor; [by constructor|]. by constructor.
  - constructor; [by apply IH|].
    apply upsert_keys_head; [done|].
    unfold str_lt. by rewrite compare_antisym, Hc.
Qed.

Lemma sorted_keys_above k k1 (ks : list pystr) :
  Sorted str_lt (k1 :: ks) → str_lt k k1 → k ∉ k1 :: ks.
Proof.
  intros Hs%Sorted_StronglySorted Hk; [|exact str_lt_trans].
  apply StronglySorted_inv in Hs as [_ Hall].
  intros [->|Hin]%elem_of_cons; [by eapply str_lt_irrefl|].
  rewrite List.Forall_forall in Hall.
  apply (str_lt_irrefl k), (compare_lt_trans k k1 k); [done|].
  apply Hall. by apply list_elem_of_In.
Qed.

Lemma sorted_keys_NoDup (ks : list pystr) : Sorted str_lt ks → NoDup ks.
Proof.
  induction 1 as [|k ks Hs IH Hhd]; constructor; [|done].
  destruct ks as [|k1 ks]; [apply not_elem_of_nil|].
  inversion_clear Hhd as [|?? Hlt]. by apply (sorted_keys_above k k1 ks).
Qed.

Lemma upsert_lookup k ini upd gs k' :
  Sorted str_lt (gs.*1) →
  (list_to_map (upsert k ini upd gs) : gmap pystr V) !! k' =
    if decide (k' = k)
    then Some (from_option upd ini ((list_to_map gs : gmap pystr V) !! k))
    else (list_to_map gs : gmap pystr V) !! k'.
Proof.
  induction gs as [|[k1 v1] gs IH]; simpl.
  - intros _. rewrite lookup_insert, lookup_empty.
    repeat case_decide; by simplify_eq.
  - intros Hs. destruct (PyStr.compare k k1) eqn:Hc; simpl.
    + apply compare_eq in Hc as ->. rewrite lookup_insert_eq. simpl.
      rewrite !lookup_insert. repeat case_decide; by simplify_eq.
    + assert ((list_to_map ((k1, v1) :: gs) : gmap pystr V) !! k = None)
        as Hnone by (by apply not_elem_of_list_to_map_1, sorted_keys_above).
      simpl in Hnone. rewrite Hnone. simpl. rewrite !lookup_insert. repeat case_decide; by simplify_eq.
    + assert (k ≠ k1) as Hne.
      { intros ->. by rewrite (proj2 (compare_eq k1 k1) eq_refl) in Hc. }
      inversion_clear Hs as [|?? Hs' Hhd].
      rewrite !lookup_insert, IH by done.
      repeat case_decide; by simplify_eq.
Qed.

End UpsertFacts.

Section AgregarFacts.
Context {X V : Type} (ini : X → V) (upd : X → V → V).
Implicit Types (rows : list (pystr * X)) (acc : list (pystr * V)).

Lemma valores_cons k k0 (x : X) rows :
  valores k ((k0, x) :: rows) =
    if decide (k0 = k) then x :: valores k rows else valores k rows.
Proof. unfold valores. rewrite filter_cons. simpl. by case_decide. Qed.

Lemma foldl_upsert acc rows :
  Sorted str_lt (acc.*1) →
  Sorted str_lt ((foldl (passo ini upd) acc rows).*1) ∧
  ∀ k, (list_to_map (foldl (passo ini upd) acc rows) : gmap pystr V) !! k =
       dobrar ini upd ((list_to_map acc : gmap pystr V) !! k) (valores k rows).
Proof.
  revert acc. induction rows as [|[k0 x] rows IH]; intros acc Hs; simpl.
  - done.
  - destruct (IH (upsert k0 (ini x) (upd x) acc)) as [Hs' Hl];
      [by apply upsert_sorted|].
    split; [done|]. intros k. rewrite Hl, upsert_lookup, valores_cons by done.
    destruct (decide (k = k0)) as [->|Hne].
    + by rewrite decide_True.
    + by rewrite decide_False.
Qed.

Lemma agregar_sorted rows : Sorted str_lt ((agregar ini upd rows).*1).
Proof. apply (foldl_upsert [] rows). constructor. Qed.

Lemma agregar_lookup rows k :
  (list_to_map (agregar ini upd rows) : gmap pystr V) !! k =
    dobrar ini upd None (valores k rows).
Proof.
  unfold agregar. destruct (foldl_upsert [] rows) as [_ ->]; [constructor|].
  done.
Qed.

End AgregarFacts.

(** ** Order of float64 *)

Lemma SFcompare_refl a : a ≠ S754_nan → SFcompare a a = Some Eq.
Proof.
  destruct a as [s|s| |s m e]; simpl; try done; intros _.
  - by destruct s.
  - change (Pos.compare_cont Eq m m) with (Pos.compare m m).
    rewrite Z.compare_refl, Pos.compare_refl. by destruct s.
Qed.

Lemma SFleb_nan a b : SFleb a b = true → a ≠ S754_nan ∧ b ≠ S754_nan.
Proof. unfold SFleb. destruct a, b; simpl; try done. Qed.

Lemma SFleb_total a b :
  a ≠ S754_nan → b ≠ S754_nan → SFleb a b = false → SFleb b a = true.
Proof.
  unfold SFleb. destruct a as [s1|s1| |s1 m1 e1], b as [s2|s2| |s2 m2 e2];
    simpl; try done; intros _ _;
    try (destruct s1; done); try (destruct s2; done);
    try (destruct s1, s2; done).
  all: repeat change (Pos.compare_cont Eq ?a ?b) with (Pos.compare a b).
  all: destruct s1, s2; try done.
  all: destruct (Z.compare_spec e1 e2), (Z.compare_spec e2 e1); try done; try lia.
  all: destruct (Pos.compare_spec m1 m2), (Pos.compare_spec m2 m1);
    simpl; try done; lia.
Qed.

Lemma SFleb_trans a b c :
  SFleb a b = true → SFleb b c = true → SFleb a c = true.
Proof.
  unfold SFleb.
  destruct a as [s1|s1| |s1 m1 e1], b as [s2|s2| |s2 m2 e2], c as [s3|s3| |s3 m3 e3];
    simpl; try done;
    try (destruct s1; try done; destruct s2; try done; destruct s3; done);
    try (destruct s1; try done; destruct s2; done);
    try (destruct s1; try done; destruct s3; done);
    try (destruct s2; try done; destruct s3; done).
  all: repeat change (Pos.compare_cont Eq ?a ?b) with (Pos.compare a b).
  all: destruct s1, s2, s3; try done.
  all: destruct (Z.compare_spec e1 e2), (Z.compare_spec e2 e3), (Z.compare_spec e1 e3);
      try done; try lia; subst.
  all: destruct (Pos.compare_spec m1 m2), (Pos.compare_spec m2 m3), (Pos.compare_spec m1 m3);
      simpl; try done; try lia.
Qed.

Lemma isnan_spec x : isnan x = true ↔ Prim2SF x = S754_nan.
Proof.
  unfold isnan. rewrite FloatAxioms.eqb_spec. unfold SFeqb. split.
  - destruct (Prim2SF x) as [s|s| |s m e] eqn:E; try done;
      rewrite SFcompare_refl; done.
  - by intros ->.
Qed.

Lemma isnan_false x : isnan x = false ↔ Prim2SF x ≠ S754_nan.
Proof. rewrite <-isnan_spec. by destruct (isnan x). Qed.

Lemma leb_isnan x y : PrimFloat.leb x y = true → isnan x = false ∧ isnan y = false.
Proof. rewrite FloatAxioms.leb_spec, !isnan_false. apply SFleb_nan. Qed.

Lemma leb_total x y :
  isnan x = false → isnan y = false →
  PrimFloat.leb x y = false → PrimFloat.leb y x = true.
Proof. rewrite !FloatAxioms.leb_spec, !isnan_false. apply SFleb_total. Qed.

Lemma leb_trans x y z :
  PrimFloat.leb x y = true → PrimFloat.leb y z = true → PrimFloat.leb x z = true.
Proof. rewrite !FloatAxioms.leb_spec. apply SFleb_trans. Qed.

Lemma leb_refl x : isnan x = false → PrimFloat.leb x x = true.
Proof.
  rewrite FloatAxioms.leb_spec, isnan_false. intros H. unfold SFleb. by rewrite SFcompare_refl.
Qed.

Lemma leb_neg_infinity x : PrimFloat.leb x neg_infinity = true → x = neg_infinity.
Proof.
  rewrite FloatAxioms.leb_spec. intros H. apply Prim2SF_inj.
  change (Prim2SF neg_infinity) with (S754_infinity true).
  revert H. unfold SFleb.
  destruct (Prim2SF x) as [s|s| |s m e]; simpl; try done; by destruct s.
Qed.

Lemma isnan_ne x y : isnan x = false → isnan y = true → x ≠ y.
Proof. intros Hx Hy ->. congruence. Qed.

(** ** Grouped means *)

Lemma dobrar_acum (a : acum) xs :
  dobrar (acum_add acum_zero) (λ x a, acum_add a x) (Some a) xs =
    Some (foldl acum_add a xs).
Proof.
  revert a. induction xs as [|x xs IH]; intros a; [done|]. apply IH.
Qed.

Lemma groupby_mean_sorted keys vals :
  Sorted str_lt ((groupby_mean keys vals).*1).
Proof.
  unfold groupby_mean. rewrite <-list_fmap_compose.
  erewrite list_fmap_ext; [apply agregar_sorted|]. by intros _ [k a] _.
Qed.

Lemma groupby_mean_lookup keys vals k :
  (list_to_map (groupby_mean keys vals) : gmap pystr float) !! k =
    match valores k (zip keys vals) with
    | [] => None
    | xs => Some (media xs)
    end.
Proof.
  unfold groupby_mean. rewrite list_to_map_fmap, lookup_fmap, agregar_lookup.
  destruct (valores k (zip keys vals)) as [|x xs]; [done|].
  change (dobrar ?i ?u None (x :: xs))
    with (dobrar i u (Some (acum_add acum_zero x)) xs).
  by rewrite dobrar_acum.
Qed.

Lemma groupby_mean_elem_of keys vals k m :
  (k, m) ∈ groupby_mean keys vals ↔
  valores k (zip keys vals) ≠ [] ∧ m = media (valores k (zip keys vals)).
Proof.
  rewrite elem_of_list_to_map by apply sorted_keys_NoDup, groupby_mean_sorted.
  rewrite groupby_mean_lookup.
  destruct (valores k (zip keys vals)) as [|x xs]; simpl; naive_solver.
Qed.

Lemma valores_salarios (key : registro → pystr) df k :
  valores k (zip (key <$> df) (usd <$> df)) = salarios (λ r, key r = k) df.
Proof.
  unfold salarios. induction df as [|r df IH]; [done|].
  rewrite !fmap_cons. cbn [zip_with].
  rewrite valores_cons, filter_cons, IH. by case_decide.
Qed.

Lemma salarios_nonempty (P : registro → Prop) `{∀ r, Decision (P r)} df :
  salarios P df ≠ [] ↔ ∃ r, r ∈ df ∧ P r.
Proof.
  unfold salarios. split.
  - destruct (filter P df) as [|r l] eqn:E; [done|]. intros _.
    assert (r ∈ filter P df) as [? ?]%list_elem_of_filter by (rewrite E; left).
    by exists r.
  - intros (r & Hin & HP) Hnil.
    assert (r ∈ filter P df) as Hr by (by apply list_elem_of_filter).
    destruct (filter P df); [by apply not_elem_of_nil in Hr|done].
Qed.



(** With NaN cells only, nothing is counted. *)
Lemma media_so_nan l : Forall (λ x, isnan x = true) l → media l = nan.
Proof.
  intros Hl. unfold media.
  assert (foldl acum_add acum_zero l = acum_zero) as ->; [|done].
  generalize acum_zero. induction Hl as [|x l Hx _ IH]; intros a; [done|].
  simpl. unfold acum_add at 2. rewrite Hx. apply IH.
Qed.

(** The mean reads only the cells that hold a number. *)
Lemma media_dropna l : media l = media (filter (λ x, isnan x = false) l).
Proof.
  unfold media. generalize acum_zero.
  induction l as [|x l IH]; intros a; [done|].
  rewrite filter_cons. simpl. destruct (isnan x) eqn:Hx.
  - rewrite decide_False by done. unfold acum_add at 2. rewrite Hx. apply IH.
  - rewrite decide_True by done. simpl. apply IH.
Qed.

(** ** The insertion sort *)

Section OrdenarFacts.
Context {A : Type} (leb : A → A → bool).
Implicit Types (x y : A) (l : list A).

Lemma inserir_perm x l : inserir leb x l ≡ₚ x :: l.
Proof.
induction l as [|y l IH]; simpl; [done|].
destruct (leb x y); [done|]. rewrite IH. apply Permutation_swap.
Qed.

Lemma ordenar_perm l : ordenar leb l ≡ₚ l.
Proof.
induction l as [|x l IH]; simpl; [done|].
by rewrite inserir_perm, IH.
Qed.

Hypothesis leb_total : ∀ x y, leb x y = false → leb y x = true.

Lemma inserir_sorted x l : Sorted (λ x y, leb x y = true) l →
Sorted (λ x y, leb x y = true) (inserir leb x l).
Proof.
induction l as [|y l IH]; simpl; [by repeat constructor|].
intros Hs. destruct (leb x y) eqn:Hxy.
- constructor; [done|]. by constructor.
- inversion_clear Hs as [|?? Hs' Hhd]. constructor; [by apply IH|].
  destruct l as [|z l]; simpl.
  + constructor. by apply leb_total.
  + inversion_clear Hhd. destruct (leb x z); constructor; [by apply leb_total|done].
Qed.

Lemma ordenar_sorted l : Sorted (λ x y, leb x y = true) (ordenar leb l).
Proof.
induction l as [|x l IH]; simpl; [constructor|]. by apply inserir_sorted.
Qed.

End OrdenarFacts.

Lemma Sorted_impl {A} (R1 R2 : relation A) l :
  (∀ x y, R1 x y → R2 x y) → Sorted R1 l → Sorted R2 l.
Proof.
  intros HR. induction 1 as [|x l _ IH Hhd]; constructor; [done|].
  destruct Hhd; constructor. by apply HR.
Qed.

Section OrdenarOn.
Context {A : Type} (leb : A → A → bool) (P : A → Prop).
Implicit Types (x y : A) (l : list A).

Hypothesis leb_total_on : ∀ x y, P x → P y → leb x y = false → leb y x = true.

Lemma inserir_sorted_on x l :
  P x → Forall P l →
  Sorted (λ x y, leb x y = true) l →
  Sorted (λ x y, leb x y = true) (inserir leb x l).
Proof.
  intros Hx Hl. induction Hl as [|y l Hy Hl IH]; simpl; [by repeat constructor|].
  intros Hs. destruct (leb x y) eqn:Hxy.
  - constructor; [done|]. by constructor.
  - inversion_clear Hs as [|?? Hs' Hhd]. constructor; [by apply IH|].
    destruct l as [|z l]; simpl.
    + constructor. by apply leb_total_on.
    + inversion_clear Hhd.
      destruct (leb x z); constructor; [by apply leb_total_on|done].
Qed.

Lemma ordenar_sorted_on l :
  Forall P l → Sorted (λ x y, leb x y = true) (ordenar leb l).
Proof.
  induction 1 as [|x l Hx Hl IH]; simpl; [constructor|].
  apply inserir_sorted_on; [done| |done].
  by rewrite (ordenar_perm leb l).
Qed.

End OrdenarOn.

Lemma filter_all {A} (P : A → Prop) `{∀ x, Decision (P x)} (l : list A) :
  Forall P l → filter P l = l.
Proof.
  induction 1 as [|x l Hx _ IH]; [done|]. by rewrite filter_cons_True, IH.
Qed.

Lemma filter_none {A} (P : A → Prop) `{∀ x, Decision (P x)} (l : list A) :
  Forall (λ x, ¬ P x) l → filter P l = [].
Proof.
  induction 1 as [|x l Hx _ IH]; [done|]. by rewrite filter_cons_False, IH.
Qed.

Section ValorFacts.
Context {K : Type}.
Implicit Types (s : list (K * float)) (a b : K * float).

Lemma Forall_dropna s : Forall (λ a, isnan a.2 = false) (dropna s).
Proof. apply Forall_forall. by intros a [? _]%list_elem_of_filter. Qed.

Lemma Forall_so_nan s : Forall (λ a, isnan a.2 = true) (so_nan s).
Proof. apply Forall_forall. by intros a [? _]%list_elem_of_filter. Qed.

Lemma dropna_so_nan_perm s : dropna s ++ so_nan s ≡ₚ s.
Proof.
  induction s as [|a s IH]; [done|]. unfold dropna, so_nan in *.
  rewrite !filter_cons. destruct (isnan a.2) eqn:E.
  - rewrite decide_False, decide_True by done.
    rewrite <-Permutation_middle. by f_equiv.
  - rewrite decide_True, decide_False by done. simpl. by f_equiv.
Qed.

Lemma dropna_app s1 s2 :
  Forall (λ a, isnan a.2 = false) s1 → Forall (λ a, isnan a.2 = true) s2 →
  dropna (s1 ++ s2) = s1 ∧ so_nan (s1 ++ s2) = s2.
Proof.
  intros H1 H2. unfold dropna, so_nan. rewrite !filter_app.
  rewrite (filter_all _ s1 H1), (filter_all _ s2 H2).
  rewrite (filter_none (λ a, isnan a.2 = false) s2),
          (filter_none (λ a, isnan a.2 = true) s1).
  - by rewrite app_nil_r.
  - eapply Forall_impl; [exact H1|]. intros a Ha. by rewrite Ha.
  - eapply Forall_impl; [exact H2|]. intros a Ha. by rewrite Ha.
Qed.

Lemma sort_values_perm s : sort_values s ≡ₚ s.
Proof. unfold sort_values. rewrite ordenar_perm. apply dropna_so_nan_perm. Qed.

Lemma asc_sorted s :
  Sorted (λ a b, PrimFloat.leb a.2 b.2 = true) (ordenar por_valor_asc (dropna s)).
Proof.
  apply (ordenar_sorted_on por_valor_asc (λ a, isnan a.2 = false));
    [|apply Forall_dropna].
  intros a b Ha Hb. by apply leb_total.
Qed.

(** The lines with a value come first, in ascending order; the NaN lines
    follow. *)
Lemma sort_values_split s :
  sort_values s = dropna (sort_values s) ++ so_nan (sort_values s) ∧
  Sorted (λ a b, PrimFloat.leb a.2 b.2 = true) (dropna (sort_values s)).
Proof.
  unfold sort_values.
  destruct (dropna_app (ordenar por_valor_asc (dropna s)) (so_nan s)) as [-> ->].
  - rewrite (ordenar_perm por_valor_asc (dropna s)). apply Forall_dropna.
  - apply Forall_so_nan.
  - split; [done|apply asc_sorted].
Qed.

Lemma desc_sorted s :
  StronglySorted (λ a b, PrimFloat.leb b.2 a.2 = true)
                 (ordenar por_valor_desc (dropna s)).
Proof.
  apply Sorted_StronglySorted.
  { intros a b c Hab Hbc. by eapply leb_trans. }
  apply (ordenar_sorted_on por_valor_desc (λ a, isnan a.2 = false));
    [|apply Forall_dropna].
  intros a b Ha Hb. by apply leb_total.
Qed.

Lemma nlargest_perm n s :
  ∃ d, d ≡ₚ s ∧ nlargest n s = take n d.
Proof.
  exists (ordenar por_valor_desc (dropna s) ++ so_nan s). split; [|done].
  rewrite ordenar_perm. apply dropna_so_nan_perm.
Qed.

Lemma length_nlargest n s : length (nlargest n s) = n `min` length s.
Proof.
  destruct (nlargest_perm n s) as (d & Hd & ->). by rewrite length_take, Hd.
Qed.

Lemma elem_of_nlargest n s a : a ∈ nlargest n s → a ∈ s.
Proof.
  destruct (nlargest_perm n s) as (d & Hd & ->). intros Ha.
  eapply elem_of_sublist in Ha; [|apply sublist_take]. by rewrite Hd in Ha.
Qed.

(** A line with a value that [nlargest] leaves out is not above any line it
    keeps, and every line it keeps has a value. *)
Lemma nlargest_largest n s a b :
  a ∈ nlargest n s → b ∈ s → b ∉ nlargest n s → isnan b.2 = false →
  PrimFloat.leb b.2 a.2 = true.
Proof.
  unfold nlargest. intros Ha Hb Hnb Hval.
  set (D := ordenar por_valor_desc (dropna s)) in *.
  assert (b ∈ D) as HbD.
  { unfold D. rewrite ordenar_perm. by apply list_elem_of_filter. }
  destruct (decide (length D ≤ n)) as [Hle|Hgt].
  - destruct Hnb. rewrite take_app_ge by done. apply elem_of_app. by left.
  - rewrite take_app_le in Ha, Hnb by lia.
    pose proof (desc_sorted s) as Hs. fold D in Hs.
    rewrite <-(take_drop n D) in Hs, HbD.
    apply elem_of_app in HbD as [?|HbD]; [done|].
    by apply (StronglySorted_app_1_elem_of _ _ _ a b) in Hs.
Qed.

End ValorFacts.

(** ** The aggregates: claims *)

Lemma df_ds_filter df : df_ds df = filter (λ r, cargo r = DATA_SCIENTIST) df.
Proof.
  unfold df_ds. rewrite <-list_fmap_compose, getitem_mask_fmap.
  apply list_filter_iff. intros r. simpl. by rewrite bool_decide_eq_true.
Qed.


(** C3.  On the empty view the mean, the maximum and the count are 0, the
    most frequent role is the dash, the top-10 table and every other chart
    are skipped, and nothing raises. *)
Theorem empty_view_defaults np_sum :
  renderizar np_sum [] =
    Ok {| pg_kpis := {| salario_medio := 0%float; salario_max := 0%float;
                        total := 0; cargo_freq := TRACO |};
          pg_top_cargos := None;
          pg_histograma := None;
          pg_remoto := None;
          pg_media_pais := None;
          pg_tabela := [] |}.
Proof. reflexivity. Qed.




Lemma groupby_cargo_elem_of df c m :
  (c, m) ∈ groupby_mean (cargo <$> df) (usd <$> df) ↔
  c ∈ cargo <$> df ∧ m = media_do_cargo df c.
Proof.
  rewrite groupby_mean_elem_of, valores_salarios, salarios_nonempty.
  unfold media_do_cargo. rewrite list_elem_of_fmap. naive_solver.
Qed.

Lemma groupby_cargo_keys df c :
  c ∈ (groupby_mean (cargo <$> df) (usd <$> df)).*1 ↔ c ∈ cargo <$> df.
Proof.
  rewrite (list_elem_of_fmap fst). split.
  - intros ([c' m] & -> & Hin). by apply groupby_cargo_elem_of in Hin as [? _].
  - intros Hc. exists (c, media_do_cargo df c). split; [done|].
    by apply groupby_cargo_elem_of.
Qed.

(** What the code guarantees of the top-10 table of a non-empty view. *)
Lemma top_cargos_table df :
  df ≠ [] →
  ∃ t, top_cargos df = Some t ∧
       NoDup t.*1 ∧
       length t = 10 `min` length (remove_dups (cargo <$> df)) ∧
       Forall (λ cm, cm.1 ∈ cargo <$> df ∧ cm.2 = media_do_cargo df cm.1) t ∧
       t = dropna t ++ so_nan t ∧
       Sorted (λ a b, PrimFloat.leb a.2 b.2 = true) (dropna t) ∧
       Forall (λ c, c ∈ t.*1 ∨
                    isnan (media_do_cargo df c) = true ∨
                    Forall (λ cm, PrimFloat.leb (media_do_cargo df c) cm.2 = true) t)
              (cargo <$> df).
Proof.
  intros Hne. unfold top_cargos. destruct df as [|r0 df0] eqn:Hdf; [done|].
  rewrite <-Hdf. rewrite <-Hdf in Hne. clear r0 df0 Hdf.
  eexists. split; [reflexivity|].
  set (M := groupby_mean (cargo <$> df) (usd <$> df)).
  assert (NoDup M.*1) as HndM by apply sorted_keys_NoDup, groupby_mean_sorted.
  pose proof (sort_values_perm (nlargest 10 M)) as Hperm.
  assert (∀ a, a ∈ sort_values (nlargest 10 M) ↔ a ∈ nlargest 10 M) as Hin
    by (intros a; by rewrite Hperm).
  destruct (sort_values_split (nlargest 10 M)) as [Hsplit Hsorted].
  split; [|split; [|split; [|split; [|split]]]]; [| | |done|done|].
  - rewrite Hperm. destruct (nlargest_perm 10 M) as (d & Hd & ->).
    rewrite fmap_take. apply (sublist_NoDup _ (d.*1)); [by rewrite Hd|].
    apply sublist_take.
  - rewrite Hperm, length_nlargest. f_equal.
    rewrite <-(length_fmap fst M). apply Permutation_length.
    apply NoDup_Permutation; [done|apply NoDup_remove_dups|].
    intros c. rewrite elem_of_remove_dups. apply groupby_cargo_keys.
  - apply Forall_forall. intros [c m] Hcm%Hin%elem_of_nlargest.
    by apply groupby_cargo_elem_of.
  - apply Forall_forall. intros c Hc.
    destruct (decide (c ∈ (sort_values (nlargest 10 M)).*1)) as [?|Hout];
      [by left|right].
    destruct (isnan (media_do_cargo df c)) eqn:Hnan; [by left|right].
    apply Forall_forall. intros a Ha%Hin.
    apply (nlargest_largest 10 M a (c, media_do_cargo df c)); [done| | |done].
    + by apply groupby_cargo_elem_of.
    + intros Hc'%Hin. apply Hout, (list_elem_of_fmap fst).
      by exists (c, media_do_cargo df c).
Qed.

(** Counterexample to C7 as stated: when one role has a salary
    and another has none, the table lists the role without a mean after the
    other, which is not an ascending order of means. *)
Lemma top_cargos_como_especificado_fails :
  ¬ top_cargos_como_especificado um_sem_salario.
Proof.
  unfold top_cargos_como_especificado.
  assert (top_cargos um_sem_salario =
            Some [(py "Engineer", 5%float); (py "Analyst", nan)]) as ->
    by (vm_compute; reflexivity).
  intros (_ & _ & _ & _ & Hs & _).
  inversion_clear Hs as [|?? _ Hhd]. inversion_clear Hhd as [|?? Hle].
  vm_compute in Hle. discriminate.
Qed.

(** C7.  Amended: on a non-empty view the top-10 table has one line per
    role, min(10, number of roles) lines, each role with its float64 mean
    salary over the view (NaN for a role without a salary).  The roles with
    a mean come first, in ascending order of the mean, the roles without one
    after them.  A role with a mean is left out only when every line kept
    has a mean that is not below its own; a role without a mean yields to
    every role that has one.  When every role has a mean, this is the table
    of the specification.  On the empty view there is no table. *)
Theorem top_cargos_spec df :
  match top_cargos df with
  | None => df = []
  | Some t =>
      df ≠ [] ∧
      NoDup t.*1 ∧
      length t = 10 `min` length (remove_dups (cargo <$> df)) ∧
      Forall (λ cm, cm.1 ∈ cargo <$> df ∧ cm.2 = media_do_cargo df cm.1) t ∧
      t = dropna t ++ so_nan t ∧
      Sorted (λ a b, PrimFloat.leb a.2 b.2 = true) (dropna t) ∧
      Forall (λ c, c ∈ t.*1 ∨
                   isnan (media_do_cargo df c) = true ∨
                   Forall (λ cm, PrimFloat.leb (media_do_cargo df c) cm.2 = true) t)
             (cargo <$> df) ∧
      (∀ c, media_do_cargo df c =
              media (filter (λ x, isnan x = false)
                            (salarios (λ r, cargo r = c) df))) ∧
      (∀ c, Forall (λ x, isnan x = true) (salarios (λ r, cargo r = c) df) →
            media_do_cargo df c = nan) ∧
      (Forall (λ c, isnan (media_do_cargo df c) = false) (cargo <$> df) →
       top_cargos_como_especificado df)
  end.
Proof.
  destruct df as [|r0 df0] eqn:Hdf; [done|].
  assert (df ≠ []) as Hne by (by rewrite Hdf). rewrite <-Hdf. clear r0 df0 Hdf.
  destruct (top_cargos_table df Hne) as (t & Ht & H1 & H2 & H3 & H4 & H5 & H6).
  rewrite Ht. do 7 (split; [done|]).
  split; [intros c; apply media_dropna|].
  split; [intros c; apply media_so_nan|].
  intros Hval. unfold top_cargos_como_especificado. rewrite Ht.
  do 4 (split; [done|]).
  assert (Forall (λ a : pystr * float, isnan a.2 = false) t) as Hclean.
  { apply Forall_forall. intros [c m] Hcm.
    rewrite Forall_forall in H3. destruct (H3 _ Hcm) as [Hc ->]. simpl in *.
    rewrite Forall_forall in Hval. by apply Hval. }
  split.
  - unfold dropna in H5. by rewrite (filter_all _ t Hclean) in H5.
  - apply Forall_forall. intros c Hc.
    rewrite Forall_forall in H6, Hval.
    destruct (H6 c Hc) as [?|[Hnan|?]]; [by left| |by right].
    rewrite (Hval c Hc) in Hnan. discriminate.
Qed.

Lemma top_cargos_spec_witness : top_cargos_como_especificado tabela.
Proof.
  pose proof (top_cargos_spec tabela) as H.
  destruct (top_cargos tabela) as [t|] eqn:Ht; [|discriminate Ht].
  apply H. apply (bool_decide_unpack _). vm_compute. reflexivity.
Defined.

(** ** The page never raises *)

Lemma foldr_max_elem_of (l : list nat) : l ≠ [] → foldr Nat.max 0%nat l ∈ l.
Proof.
  induction l as [|n l IH]; [done|]. intros _. simpl.
  destruct l as [|n' l].
  - simpl. rewrite Nat.max_0_r. left.
  - destruct (Nat.max_spec n (foldr Nat.max 0%nat (n' :: l))) as [[_ ->]|[_ ->]].
    + right. by apply IH.
    + left.
Qed.

Lemma foldl_Some_not_None {X V} (g : option V → X → V) v xs :
  foldl (λ o x, Some (g o x)) (Some v) xs ≠ None.
Proof. revert v. induction xs as [|x xs IH]; intros v; simpl; [done|apply IH]. Qed.

Lemma mode_nonempty col : col ≠ [] → mode col ≠ [].
Proof.
  intros Hcol. unfold mode.
  set (cs := contagens col).
  assert (cs ≠ []) as Hcs.
  { destruct col as [|k col]; [done|]. intros Hnil.
    pose proof (agregar_lookup (λ _ : unit, 1%nat) (λ _ n, S n)
                  ((λ k, (k, tt)) <$> k :: col) k) as Hl.
    fold (contagens (k :: col)) in Hl. fold cs in Hl. rewrite Hnil in Hl.
    rewrite fmap_cons, valores_cons, decide_True in Hl by done.
    simpl in Hl. rewrite lookup_empty in Hl.
    symmetry in Hl. unfold dobrar in Hl. by apply foldl_Some_not_None in Hl. }
  assert (foldr Nat.max 0%nat cs.*2 ∈ cs.*2) as Hmx.
  { apply foldr_max_elem_of. by destruct cs. }
  apply (list_elem_of_fmap snd) in Hmx as ([k n] & Hn & Hkn).
  intros Hnil%fmap_nil_inv.
  assert ((k, n) ∈ filter (λ kn : pystr * nat, kn.2 = foldr Nat.max 0%nat cs.*2) cs)
    as Hf by (by apply list_elem_of_filter).
  rewrite Hnil in Hf. by apply not_elem_of_nil in Hf.
Qed.

(** Whatever the view, every aggregate of the page is computed. *)
Lemma renderizar_never_raises np_sum df : ∃ pg, renderizar np_sum df = Ok pg.
Proof.
  unfold renderizar, metricas. destruct df as [|r df]; [by eexists|].
  destruct (mode (cargo <$> r :: df)) as [|c cs] eqn:Hm.
  - by apply mode_nonempty in Hm.
  - by eexists.
Qed.

(** * Further properties of the pipeline *)

(** ** More on the loader *)

Section LoaderMore.
Variable cast : dtype → value → option value.

Lemma astype_Ok c t (col col' : Series) :
  astype cast c t col = Ok col' ↔
  (t = Object ∧ col' = col) ∨ (t ≠ Object ∧ mapM (cast t) col = Some col').
Proof.
  unfold astype. destruct t; try destruct (mapM _ col); naive_solver.
Qed.

Lemma astype_Raise c t (col : Series) e :
  astype cast c t col = Raise e ↔
  t ≠ Object ∧ mapM (cast t) col = None ∧ e = CastError c t.
Proof.
  unfold astype. destruct t; try destruct (mapM _ col); naive_solver.
Qed.

Lemma coagir_inv items (df df' : DataFrame) :
  NoDup items.*1 →
  coagir cast items df = Ok df' →
  (∀ c t, (c, t) ∈ items →
     ∃ col col', df !! c = Some col ∧ astype cast c t col = Ok col' ∧
                 df' !! c = Some col') ∧
  (∀ c, c ∉ items.*1 → df' !! c = df !! c).
Proof.
  revert df. induction items as [|[c0 t0] items IH]; intros df Hnd; simpl.
  - intros [= ->]. split; [by intros c t ?%elem_of_nil|done].
  - apply NoDup_cons in Hnd as [Hc0 Hnd]. simpl in Hc0.
    intros (col & Hcol%getitem_Ok & (col' & Hast & Hrec)%bind_Ok)%bind_Ok.
    destruct (IH _ Hnd Hrec) as [Hin Hout]. split.
    + intros c t [[= -> ->]|Hct]%elem_of_cons.
      * exists col, col'. split; [done|]. split; [done|].
        by rewrite (Hout _ Hc0), lookup_insert_eq.
      * destruct (Hin c t Hct) as (col1 & col1' & H1 & H2 & H3).
        exists col1, col1'. split; [|done].
        rewrite lookup_insert_ne in H1; [done|].
        intros ->. apply Hc0, (list_elem_of_fmap fst). by exists (c, t).
    + intros c [Hne Hc]%not_elem_of_cons.
      by rewrite (Hout _ Hc), lookup_insert_ne.
Qed.

Lemma sanitizar_colunas_other cols (df df' : DataFrame) c :
  sanitizar_colunas cols df = Ok df' → c ∉ cols → df' !! c = df !! c.
Proof.
  revert df. induction cols as [|x cols IH]; intros df; simpl.
  - by intros [= ->].
  - intros (col & _ & Hrec)%bind_Ok [Hne Hnin]%not_elem_of_cons.
    rewrite (IH _ Hrec Hnin). by rewrite lookup_insert_ne.
Qed.

Lemma sanitizar_colunas_inv cols (df df' : DataFrame) c :
  sanitizar_colunas cols df = Ok df' → c ∈ cols → is_Some (df !! c).
Proof.
  revert df. induction cols as [|x cols IH]; intros df; simpl.
  - by intros _ ?%elem_of_nil.
  - intros (col & Hcol%getitem_Ok & Hrec)%bind_Ok [->|Hin]%elem_of_cons; [done|].
    destruct (decide (c = x)) as [->|Hne]; [done|].
    pose proof (IH _ Hrec Hin) as Hs. by rewrite lookup_insert_ne in Hs.
Qed.

Lemma NoDup_COLUNAS_ESPERADAS : NoDup COLUNAS_ESPERADAS.*1.
Proof. compute_done. Qed.

Lemma colunas_faltantes_empty (df : DataFrame) :
  colunas_faltantes df = ∅ ↔ ∀ c, c ∈ COLUNAS_ESPERADAS.*1 → is_Some (df !! c).
Proof.
  unfold colunas_faltantes. split.
  - intros He c Hc. apply elem_of_dom. destruct (decide (c ∈ dom df)); [done|].
    assert (c ∈ (list_to_set COLUNAS_ESPERADAS.*1 : gset string) ∖ dom df) as Hin
      by (apply elem_of_difference; by rewrite elem_of_list_to_set).
    rewrite He in Hin. by apply not_elem_of_empty in Hin.
  - intros Hall. apply set_eq. intros c.
    rewrite elem_of_difference, elem_of_list_to_set, elem_of_dom.
    split; [|by intros ?%not_elem_of_empty]. intros [Hc Hn]. destruct Hn. by apply Hall.
Qed.

Lemma carregar_Ok_inv (df df' : DataFrame) :
  carregar cast (Ok df) = Ok df' ↔
  colunas_faltantes df = ∅ ∧
  ∃ df1, coagir cast COLUNAS_ESPERADAS df = Ok df1 ∧
         sanitizar_colunas colunas_texto df1 = Ok df'.
Proof.
  unfold carregar. cbv beta iota delta [mbind res_bind]. unfold validar_esquema.
  destruct (decide (colunas_faltantes df = ∅)) as [He|Hne].
  - destruct (coagir cast COLUNAS_ESPERADAS df) as [df1|e]; naive_solver.
  - naive_solver.
Qed.

Lemma carregar_dados_Retorna lido (df' : DataFrame) :
  carregar_dados cast lido = Retorna df' ↔ carregar cast lido = Ok df'.
Proof. unfold carregar_dados. destruct (carregar cast lido); naive_solver. Qed.

Lemma colunas_texto_esperadas c :
  c ∈ colunas_texto → (c, Object) ∈ COLUNAS_ESPERADAS.
Proof.
  unfold colunas_texto, COLUNAS_ESPERADAS.
  rewrite !elem_of_cons, !elem_of_nil. naive_solver.
Qed.

(** A column is kept, converted or sanitized according to its entry in
    [COLUNAS_ESPERADAS]. *)
Lemma carregar_lookup (df df' : DataFrame) :
  carregar cast (Ok df) = Ok df' →
  (∀ c, c ∉ COLUNAS_ESPERADAS.*1 → df' !! c = df !! c) ∧
  (∀ c t, (c, t) ∈ COLUNAS_ESPERADAS → t ≠ Object →
     ∃ col col', df !! c = Some col ∧ mapM (cast t) col = Some col' ∧
                 df' !! c = Some col') ∧
  (∀ c, c ∈ colunas_texto →
     ∃ col, df !! c = Some col ∧ df' !! c = Some (sanitizar col)).
Proof.
  intros (_ & df1 & Hco & Hsan)%carregar_Ok_inv.
  destruct (coagir_inv _ _ _ NoDup_COLUNAS_ESPERADAS Hco) as [Hin Hout].
  split; [|split].
  - intros c Hc. rewrite <-(Hout c Hc). eapply sanitizar_colunas_other; [done|].
    intros Htx%colunas_texto_esperadas. apply Hc, (list_elem_of_fmap fst).
    by exists (c, Object).
  - intros c t Hct Hobj. destruct (Hin c t Hct) as (col & col' & H1 & H2 & H3).
    apply astype_Ok in H2 as [[-> _]|[_ H2]]; [done|].
    exists col, col'. split; [done|]. split; [done|]. rewrite <-H3.
    eapply sanitizar_colunas_other; [done|].
    intros Htx. by apply Hobj, (colunas_texto_object cast c t).
  - intros c Hc.
    destruct (sanitizar_colunas_lookup _ _ _ c NoDup_colunas_texto Hsan Hc)
      as (col & Hcol & Hcol').
    exists col. split; [|done].
    destruct (Hin c Object) as (col0 & col0' & H1 & H2 & H3);
      [by apply colunas_texto_esperadas|].
    apply astype_Ok in H2 as [[_ ->]|[? _]]; [|done]. congruence.
Qed.

End LoaderMore.

Section LoaderOutcome.
Variable cast : dtype → value → option value.

Lemma coagir_Ok_astype items (df : DataFrame) :
  NoDup items.*1 →
  (∀ c t, (c, t) ∈ items →
     ∃ col, df !! c = Some col ∧
            (t ≠ Object → Forall (λ v, is_Some (cast t v)) col)) →
  ∃ df' : DataFrame, coagir cast items df = Ok df' ∧ dom df' = dom df.
Proof.
  revert df. induction items as [|[c t] items IH]; intros df Hnd Hall; simpl.
  - by exists df.
  - apply NoDup_cons in Hnd as [Hc Hnd]. simpl in Hc.
    destruct (Hall c t) as (col & Hcol & Hcast); [left|].
    unfold getitem. rewrite Hcol. cbv beta iota delta [mbind res_bind].
    assert (∃ col', astype cast c t col = Ok col') as [col' ->].
    { destruct (decide (t = Object)) as [->|Hne]; [by eexists|].
      destruct (mapM (cast t) col) as [col'|] eqn:E.
      - exists col'. apply astype_Ok. by right.
      - apply eq_None_not_Some in E. destruct E. apply mapM_is_Some. by apply Hcast. }
    destruct (IH (<[c:=col']> df) Hnd) as (df' & -> & Hdom).
    + intros c' t' Hin. destruct (Hall c' t') as (col0 & Hcol0 & Hcast0); [by right|].
      exists col0. split; [|done]. rewrite lookup_insert_ne; [done|].
      intros ->. apply Hc, (list_elem_of_fmap fst). by exists (c', t').
    + exists df'. split; [done|]. rewrite Hdom, dom_insert_L.
      apply elem_of_dom_2 in Hcol. set_solver.
Qed.

Lemma coagir_Raise pre c t post (df : DataFrame) (col : Series) :
  NoDup (pre ++ (c, t) :: post).*1 →
  (∀ c' t', (c', t') ∈ pre →
     ∃ col', df !! c' = Some col' ∧
             (t' ≠ Object → is_Some (mapM (cast t') col'))) →
  df !! c = Some col →
  t ≠ Object →
  mapM (cast t) col = None →
  coagir cast (pre ++ (c, t) :: post) df = Raise (CastError c t).
Proof.
  revert df. induction pre as [|[c0 t0] pre IH]; intros df Hnd Hpre Hcol Ht Hfail.
  - simpl. unfold getitem. rewrite Hcol. cbv beta iota delta [mbind res_bind].
    assert (astype cast c t col = Raise (CastError c t)) as ->
      by (by apply astype_Raise).
    done.
  - simpl in Hnd. apply NoDup_cons in Hnd as [Hc0 Hnd].
    destruct (Hpre c0 t0) as (col0 & Hcol0 & Hcast0); [left|].
    simpl. unfold getitem. rewrite Hcol0. cbv beta iota delta [mbind res_bind].
    assert (∃ col0', astype cast c0 t0 col0 = Ok col0') as [col0' ->].
    { destruct (decide (t0 = Object)) as [->|Hne]; [by eexists|].
      destruct (Hcast0 Hne) as [col0' E]. exists col0'. apply astype_Ok. by right. }
    apply IH; [done| | |done|done].
    + intros c' t' Hin. destruct (Hpre c' t') as (col' & H1 & H2); [by right|].
      exists col'. split; [|done]. rewrite lookup_insert_ne; [done|].
      intros ->. apply Hc0. rewrite fmap_app. apply elem_of_app. left.
      apply (list_elem_of_fmap fst). by exists (c', t').
    + rewrite lookup_insert_ne; [done|]. intros ->. apply Hc0.
      rewrite fmap_app. apply elem_of_app. right. left.
Qed.

End LoaderOutcome.

Lemma loader_returns_iff_aux cast (df : DataFrame) :
  (∀ c, c ∈ COLUNAS_ESPERADAS.*1 → is_Some (df !! c)) →
  (∀ c t col, (c, t) ∈ COLUNAS_ESPERADAS → t ≠ Object → df !! c = Some col →
              Forall (λ v, is_Some (cast t v)) col) →
  ∃ df', carregar_dados cast (Ok df) = Retorna df'.
Proof.
  intros Hcols Hcast.
  destruct (coagir_Ok_astype cast COLUNAS_ESPERADAS df) as (df1 & Hco & Hdom).
  { apply NoDup_COLUNAS_ESPERADAS. }
  { intros c t Hin. destruct (Hcols c) as [col Hcol].
    { apply (list_elem_of_fmap fst). by exists (c, t). }
    exists col. split; [done|]. intros Hobj. by eapply Hcast. }
  destruct (sanitizar_colunas_Ok colunas_texto df1) as [df' Hsan].
  { intros c Hc%colunas_texto_esperadas. rewrite Hdom. apply elem_of_dom, Hcols.
    apply (list_elem_of_fmap fst). by exists (c, Object). }
  exists df'. apply carregar_dados_Retorna, carregar_Ok_inv.
  split; [by apply colunas_faltantes_empty|]. by exists df1.
Qed.

(** ** The loader: further properties *)

(** X1.  The loader returns a table exactly when the eight expected columns
    are present and every cell of the two numeric columns converts. *)
Theorem loader_returns_iff cast (df : DataFrame) :
  (∃ df', carregar_dados cast (Ok df) = Retorna df') ↔
  (∀ c, c ∈ COLUNAS_ESPERADAS.*1 → is_Some (df !! c)) ∧
  (∀ c t col, (c, t) ∈ COLUNAS_ESPERADAS → t ≠ Object → df !! c = Some col →
              Forall (λ v, is_Some (cast t v)) col).
Proof.
  split.
  - intros [df' Hret%carregar_dados_Retorna].
    pose proof Hret as (Hfalt & _)%carregar_Ok_inv.
    split; [by apply colunas_faltantes_empty|].
    intros c t col Hct Hobj Hcol.
    destruct (carregar_lookup cast _ _ Hret) as (_ & Hnum & _).
    destruct (Hnum c t Hct Hobj) as (col0 & col' & H1 & H2 & _).
    assert (col0 = col) as -> by congruence.
    apply mapM_is_Some. by eexists.
  - intros [Hcols Hcast]. by apply loader_returns_iff_aux.
Qed.

(** X2.  A returned table has the columns of the table that was read: the
    loader adds none and drops none. *)
Theorem loader_keeps_columns cast (df df' : DataFrame) :
  carregar_dados cast (Ok df) = Retorna df' → dom df' = dom df.
Proof.
  intros Hret%carregar_dados_Retorna.
  destruct (carregar_lookup cast _ _ Hret) as (Hout & Hnum & Htxt).
  apply set_eq. intros c. rewrite !elem_of_dom.
  destruct (decide (c ∈ COLUNAS_ESPERADAS.*1)) as [Hc|Hc]; [|by rewrite Hout].
  apply (list_elem_of_fmap fst) in Hc as ([c' t] & -> & Hct). simpl.
  destruct (decide (t = Object)) as [->|Hobj].
  - destruct (Htxt c') as (col & -> & ->); [|done].
    revert Hct. unfold colunas_texto, COLUNAS_ESPERADAS.
    rewrite !elem_of_cons, !elem_of_nil. naive_solver.
  - by destruct (Hnum c' t Hct Hobj) as (col & col' & -> & _ & ->).
Qed.

Lemma loader_keeps_columns_witness :
  dom Exemplos.carregado = dom Exemplos.lido.
Proof.
  apply (loader_keeps_columns (λ _ v, Some v)).
  vm_compute. reflexivity.
Defined.

(** X3.  A column that is not one of the eight expected ones comes out of
    the loader exactly as it was read. *)
Theorem loader_extra_column_untouched cast (df df' : DataFrame) c :
  carregar_dados cast (Ok df) = Retorna df' →
  c ∉ COLUNAS_ESPERADAS.*1 →
  df' !! c = df !! c.
Proof.
  intros Hret%carregar_dados_Retorna Hc.
  destruct (carregar_lookup cast _ _ Hret) as (Hout & _ & _). by apply Hout.
Qed.

Lemma loader_extra_column_untouched_witness :
  Exemplos.carregado !! "extra" = Exemplos.lido !! "extra".
Proof.
  apply (loader_extra_column_untouched (λ _ v, Some v)).
  - vm_compute. reflexivity.
  - apply (bool_decide_unpack _). vm_compute. reflexivity.
Defined.

(** X4.  In a returned table each of the two numeric columns holds, cell by
    cell, the conversion of the cell that was read. *)
Theorem loader_numeric_column cast (df df' : DataFrame) c t (col : Series) :
  carregar_dados cast (Ok df) = Retorna df' →
  (c, t) ∈ COLUNAS_ESPERADAS →
  t ≠ Object →
  df !! c = Some col →
  ∃ col' : Series,
    df' !! c = Some col' ∧ Forall2 (λ v v', cast t v = Some v') col col'.
Proof.
  intros Hret%carregar_dados_Retorna Hct Hobj Hcol.
  destruct (carregar_lookup cast _ _ Hret) as (_ & Hnum & _).
  destruct (Hnum c t Hct Hobj) as (col0 & col' & H1 & H2 & H3).
  assert (col0 = col) as -> by congruence.
  exists col'. split; [done|]. by apply mapM_Some.
Qed.

Lemma loader_numeric_column_witness :
  ∃ col' : Series,
    Exemplos.carregado !! "ano" = Some col' ∧
    Forall2 (λ v v', (λ (_ : dtype) (v : value), Some v) Int64 v = Some v')
            [VOther (py "2023"); VOther (py "2024")] col'.
Proof.
  apply (loader_numeric_column (λ _ v, Some v) Exemplos.lido
           Exemplos.carregado "ano" Int64
           [VOther (py "2023"); VOther (py "2024")]).
  - vm_compute. reflexivity.
  - apply (bool_decide_unpack _). vm_compute. reflexivity.
  - discriminate.
  - vm_compute. reflexivity.
Defined.

(** X5.  With the eight columns present, the loader stops on the conversion
    error of [ano] when a cell of [ano] does not convert, else on that of
    [usd] when a cell of [usd] does not convert, and returns otherwise. *)
Theorem loader_outcome cast (df : DataFrame) (ano_col usd_col : Series) :
  (∀ c, c ∈ COLUNAS_ESPERADAS.*1 → is_Some (df !! c)) →
  df !! "ano" = Some ano_col →
  df !! "usd" = Some usd_col →
  match mapM (cast Int64) ano_col, mapM (cast Float64) usd_col with
  | None, _ => carregar_dados cast (Ok df) = Parou (CastError "ano" Int64)
  | Some _, None => carregar_dados cast (Ok df) = Parou (CastError "usd" Float64)
  | Some _, Some _ => ∃ df', carregar_dados cast (Ok df) = Retorna df'
  end.
Proof.
  intros Hcols Hano Husd.
  assert (∀ e, coagir cast COLUNAS_ESPERADAS df = Raise e →
               carregar_dados cast (Ok df) = Parou e) as Hstop.
  { intros e He. unfold carregar_dados, carregar.
    cbv beta iota delta [mbind res_bind]. unfold validar_esquema.
    rewrite decide_True by (by apply colunas_faltantes_empty). by rewrite He. }
  destruct (mapM (cast Int64) ano_col) as [ano'|] eqn:Ea.
  - destruct (mapM (cast Float64) usd_col) as [usd'|] eqn:Eu.
    + apply loader_returns_iff_aux; [done|].
      intros c t col Hct Hobj Hcol. apply mapM_is_Some.
      assert ((c = "ano" ∧ t = Int64) ∨ (c = "usd" ∧ t = Float64))
        as [[-> ->]|[-> ->]].
      { revert Hct. unfold COLUNAS_ESPERADAS.
        rewrite !elem_of_cons, elem_of_nil. naive_solver. }
      * assert (col = ano_col) as -> by congruence. rewrite Ea. by eexists.
      * assert (col = usd_col) as -> by congruence. rewrite Eu. by eexists.
    + apply Hstop.
      apply (coagir_Raise cast
               [("ano", Int64); ("senioridade", Object); ("contrato", Object);
                ("tamanho_empresa", Object); ("cargo", Object)]
               "usd" Float64
               [("remoto", Object); ("residencia_iso3", Object)] df usd_col);
        [apply NoDup_COLUNAS_ESPERADAS| |done|done|done].
      intros c t Hin. destruct (Hcols c) as [col Hcol].
      { apply (list_elem_of_fmap fst). exists (c, t). split; [done|].
        unfold COLUNAS_ESPERADAS. revert Hin. rewrite !elem_of_cons, !elem_of_nil.
        naive_solver. }
      exists col. split; [done|]. intros Hobj.
      assert (c = "ano" ∧ t = Int64) as [-> ->].
      { revert Hin. rewrite !elem_of_cons, elem_of_nil. naive_solver. }
      assert (col = ano_col) as -> by congruence. rewrite Ea. by eexists.
  - apply Hstop.
    by apply (coagir_Raise cast [] "ano" Int64 (tail COLUNAS_ESPERADAS) df ano_col);
      [apply NoDup_COLUNAS_ESPERADAS|intros c t ?%elem_of_nil| | |].
Qed.

Lemma loader_outcome_witness :
  carregar_dados (λ _ v, match v with VNaN => None | _ => Some v end)
    (Ok Exemplos.lido) = Parou (CastError "usd" Float64).
Proof.
  apply (loader_outcome (λ _ v, match v with VNaN => None | _ => Some v end)
           Exemplos.lido
           [VOther (py "2023"); VOther (py "2024")]
           [VOther (py "100000.0"); VNaN]).
  - intros c Hc. apply (bool_decide_unpack _). revert c Hc.
    apply Forall_forall. apply (bool_decide_unpack _). vm_compute. reflexivity.
  - vm_compute. reflexivity.
  - vm_compute. reflexivity.
Defined.

(** ** More on the sanitization chain *)

Lemma re_sub_class_nil_sublist cls s : re_sub_class cls [] s `sublist_of` s.
Proof.
  induction s as [|c s IH]; simpl; [done|].
  destruct (cls c); simpl; [by apply sublist_cons|by apply sublist_skip].
Qed.

Lemma re_sub_class_nil_id cls s :
  Forall (λ c, cls c = false) s → re_sub_class cls [] s = s.
Proof.
  induction 1 as [|c s Hc _ IH]; simpl; [done|]. by rewrite Hc, IH.
Qed.

Lemma sanitize_sublist s : SanitizerSpec.sanitize s `sublist_of` s.
Proof.
  unfold SanitizerSpec.sanitize.
  rewrite <-strip_trim, <-re_sub_remove_angle, <-slice_truncate.
  etrans; [apply strip_sublist|]. etrans; [apply re_sub_class_nil_sublist|].
  unfold slice. simpl. apply sublist_take.
Qed.

Lemma sanitize_fixed s :
  length s ≤ 100 → (LT ∉ s) → (GT ∉ s) → strip s = s →
  SanitizerSpec.sanitize s = s.
Proof.
  intros Hlen Hlt Hgt Hstrip. unfold SanitizerSpec.sanitize.
  rewrite <-strip_trim, <-re_sub_remove_angle, <-slice_truncate.
  unfold slice. simpl. rewrite (take_ge s) by done.
  rewrite re_sub_class_nil_id; [done|].
  apply Forall_forall. intros c Hc. apply angle_false. split; by intros ->.
Qed.

Lemma sanitizar_fmap (col : Series) :
  sanitizar col = (λ v, VStr (SanitizerSpec.sanitize (py_str v))) <$> col.
Proof.
  apply list_eq. intros i. rewrite list_lookup_fmap.
  destruct (col !! i) as [v|] eqn:Hi; simpl.
  - by apply sanitizar_lookup.
  - apply lookup_ge_None. rewrite length_sanitizar. by apply lookup_ge_None.
Qed.

Lemma lstrip_split s :
  ∃ l, s = l ++ lstrip s ∧ Forall (λ c, is_space c = true) l.
Proof.
  induction s as [|c s (l & Hs & Hl)]; simpl.
  - by exists [].
  - destruct (is_space c) eqn:Hc.
    + exists (c :: l). split; [simpl; by f_equal|by constructor].
    + by exists [].
Qed.

Lemma rstrip_split s :
  ∃ r, s = rstrip s ++ r ∧ Forall (λ c, is_space c = true) r.
Proof.
  induction s as [|c s (r & Hs & Hr)]; simpl.
  - by exists [].
  - destruct (rstrip s) as [|y t] eqn:E.
    + destruct (is_space c) eqn:Hc.
      * exists (c :: r). simpl in Hs. subst r. split; [done|by constructor].
      * exists r. simpl in Hs. subst r. by split.
    + exists r. split; [|done]. simpl. by rewrite Hs at 1.
Qed.

Lemma rstrip_last s c : last (rstrip s) = Some c → is_space c = false.
Proof.
  induction s as [|d s IH]; simpl; [done|].
  destruct (rstrip s) as [|y t] eqn:E.
  - destruct (is_space d) eqn:Hd; simpl; [done|]. by intros [= <-].
  - rewrite last_cons. destruct (last (y :: t)) eqn:El; [|by rewrite last_cons in El; destruct (last t)].
    intros [= <-]. by apply IH.
Qed.

(** X6.  Sanitizing a sanitized column changes nothing. *)
Theorem sanitizar_idempotent (col : Series) :
  sanitizar (sanitizar col) = sanitizar col.
Proof.
  rewrite !sanitizar_fmap, <-list_fmap_compose. apply list_fmap_ext.
  intros _ v _. simpl. f_equal.
  destruct (sanitize_clean (py_str v)) as (H1 & H2 & H3 & H4).
  by apply sanitize_fixed.
Qed.

(** X7.  A column whose cells are strings of at most 100 characters, without
    '<' or '>' and without whitespace at either end, is left as it is. *)
Theorem sanitizar_clean_column (col : Series) :
  Forall (λ v, ∃ s, v = VStr s ∧ length s ≤ 100 ∧ (LT ∉ s) ∧ (GT ∉ s) ∧
                    strip s = s) col →
  sanitizar col = col.
Proof.
  intros Hall. rewrite sanitizar_fmap. rewrite <-(list_fmap_id col) at 2.
  apply Forall_fmap_ext_1. eapply Forall_impl; [done|].
  intros v (s & -> & H1 & H2 & H3 & H4). simpl. f_equal. by apply sanitize_fixed.
Qed.

Lemma sanitizar_clean_column_witness :
  sanitizar [VStr (py "Data Scientist"); VStr (py "BRA")] =
    [VStr (py "Data Scientist"); VStr (py "BRA")].
Proof.
  apply sanitizar_clean_column.
  repeat constructor; eexists; (split; [reflexivity|]);
    (split; [vm_compute; lia|]);
    (split; [apply (bool_decide_unpack _); vm_compute; reflexivity|]);
    (split; [apply (bool_decide_unpack _); vm_compute; reflexivity|]);
    vm_compute; reflexivity.
Defined.

(** X8.  The chain only deletes characters: each cell comes out as a
    subsequence of the string form of the cell that went in. *)
Theorem sanitizar_only_deletes (col : Series) i v :
  col !! i = Some v →
  ∃ t, sanitizar col !! i = Some (VStr t) ∧ t `sublist_of` py_str v.
Proof.
  intros Hi. eexists. split; [by apply sanitizar_lookup|apply sanitize_sublist].
Qed.

Lemma sanitizar_only_deletes_witness :
  ∃ t, sanitizar [VStr (py " <a b> "); VNaN] !! 1 = Some (VStr t) ∧
       t `sublist_of` py_str VNaN.
Proof.
  apply (sanitizar_only_deletes [VStr (py " <a b> "); VNaN] 1 VNaN).
  reflexivity.
Defined.

Lemma strip_split s :
  ∃ l r, s = l ++ strip s ++ r ∧
         Forall (λ c, is_space c = true) l ∧
         Forall (λ c, is_space c = true) r.
Proof.
  unfold strip. destruct (lstrip_split s) as (l & Hs & Hl).
  destruct (rstrip_split (lstrip s)) as (r & Hs' & Hr).
  exists l, r. split; [|done]. by rewrite <-Hs'.
Qed.

Lemma strip_ends s :
  from_option (λ c, is_space c = false) True (head (strip s)) ∧
  from_option (λ c, is_space c = false) True (last (strip s)).
Proof.
  unfold strip. split.
  - pose proof (rstrip_starts_clean _ (lstrip_starts_clean s)) as Hc.
    by destruct (rstrip (lstrip s)).
  - destruct (last (rstrip (lstrip s))) as [c|] eqn:El; [|done].
    simpl. by eapply rstrip_last.
Qed.

(** X9.  After the cut at 100 characters and the removal of '<' and '>', the
    chain drops a run of whitespace at each end and nothing else; the cell
    that comes out neither starts nor ends with whitespace. *)
Theorem sanitizar_outer_whitespace (col : Series) i v :
  col !! i = Some v →
  ∃ t l r,
    sanitizar col !! i = Some (VStr t) ∧
    re_sub_class angle [] (slice 0 100 (py_str v)) = l ++ t ++ r ∧
    Forall (λ c, is_space c = true) l ∧
    Forall (λ c, is_space c = true) r ∧
    from_option (λ c, is_space c = false) True (head t) ∧
    from_option (λ c, is_space c = false) True (last t).
Proof.
  intros Hi.
  destruct (strip_split (re_sub_class angle [] (slice 0 100 (py_str v))))
    as (l & r & Hs & Hl & Hr).
  destruct (strip_ends (re_sub_class angle [] (slice 0 100 (py_str v))))
    as [Hh Ht].
  exists (strip (re_sub_class angle [] (slice 0 100 (py_str v)))), l, r.
  split; [|done].
  rewrite (sanitizar_lookup _ _ _ Hi). unfold SanitizerSpec.sanitize.
  by rewrite <-strip_trim, <-re_sub_remove_angle, <-slice_truncate.
Qed.

Lemma sanitizar_outer_whitespace_witness :
  ∃ t l r,
    sanitizar [VStr (py " <a b> ")] !! 0 = Some (VStr t) ∧
    re_sub_class angle [] (slice 0 100 (py_str (VStr (py " <a b> ")))) =
      l ++ t ++ r ∧
    Forall (λ c, is_space c = true) l ∧
    Forall (λ c, is_space c = true) r ∧
    from_option (λ c, is_space c = false) True (head t) ∧
    from_option (λ c, is_space c = false) True (last t).
Proof.
  apply (sanitizar_outer_whitespace [VStr (py " <a b> ")] 0). reflexivity.
Defined.

(** ** More on the filter and the sidebar *)

Lemma filter_sublist_impl {A} (P Q : A → Prop)
    `{∀ x, Decision (P x)} `{∀ x, Decision (Q x)} (l : list A) :
  (∀ x, x ∈ l → P x → Q x) → filter P l `sublist_of` filter Q l.
Proof.
  induction l as [|x l IH]; intros HPQ; [done|].
  assert (filter P l `sublist_of` filter Q l) as IH'
    by (apply IH; intros y Hy; apply HPQ; by right).
  rewrite !filter_cons. destruct (decide (P x)) as [HP|HP].
  - rewrite decide_True by (apply HPQ; [left|done]). by apply sublist_skip.
  - destruct (decide (Q x)); [by apply sublist_cons|done].
Qed.

Lemma filter_Forall_id {A} (P : A → Prop) `{∀ x, Decision (P x)} (l : list A) :
  Forall P l → filter P l = l.
Proof.
  induction 1 as [|x l Hx _ IH]; [done|]. by rewrite filter_cons_True, IH.
Qed.

Lemma df_filtrado_nil df sel :
  anos_sel sel = [] ∨ senioridades_sel sel = [] ∨
  contratos_sel sel = [] ∨ tamanhos_sel sel = [] →
  df_filtrado df sel = [].
Proof.
  intros Hsel. rewrite df_filtrado_filter.
  induction df as [|r df IH]; [done|].
  rewrite filter_cons_False; [done|]. intros (Ha & Hs & Hc & Ht).
  destruct Hsel as [H|[H|[H|H]]]; rewrite H in *; by eapply not_elem_of_nil.
Qed.

Section UniqueFacts.
Context {A : Type} `{EqDecision A}.
Implicit Types (l vistos : list A).

Lemma foldl_unique vistos l :
  NoDup vistos →
  NoDup (foldl (λ vistos x, if decide (x ∈ vistos) then vistos else vistos ++ [x])
               vistos l) ∧
  ∀ x, x ∈ foldl (λ vistos x, if decide (x ∈ vistos) then vistos else vistos ++ [x])
                 vistos l ↔ x ∈ vistos ∨ x ∈ l.
Proof.
  revert vistos. induction l as [|y l IH]; intros vistos Hnd; simpl.
  - split; [done|]. intros x. rewrite elem_of_nil. tauto.
  - destruct (decide (y ∈ vistos)) as [Hy|Hy].
    + destruct (IH vistos Hnd) as [H1 H2]. split; [done|].
      intros x. rewrite H2, elem_of_cons. naive_solver.
    + destruct (IH (vistos ++ [y])) as [H1 H2].
      { apply NoDup_app. split; [done|]. split; [|apply NoDup_singleton].
        intros x Hx ->%list_elem_of_singleton. done. }
      split; [done|]. intros x.
      rewrite H2, elem_of_app, list_elem_of_singleton, elem_of_cons. tauto.
Qed.

Lemma NoDup_unique l : NoDup (unique l).
Proof. apply (foldl_unique [] l). constructor. Qed.

Lemma elem_of_unique l x : x ∈ unique l ↔ x ∈ l.
Proof.
  unfold unique. destruct (foldl_unique [] l) as [_ ->]; [constructor|].
  rewrite elem_of_nil. tauto.
Qed.
End UniqueFacts.

Lemma str_leb_total a b : str_leb a b = false → str_leb b a = true.
Proof.
  unfold str_leb. rewrite (compare_antisym a b).
  by destruct (PyStr.compare a b).
Qed.

Lemma Z_leb_total (a b : Z) : (a <=? b)%Z = false → (b <=? a)%Z = true.
Proof. lia. Qed.

Lemma elem_of_sorted_str l x : x ∈ sorted_str (unique l) ↔ x ∈ l.
Proof. unfold sorted_str. by rewrite ordenar_perm, elem_of_unique. Qed.

Lemma elem_of_sorted_int l x : x ∈ sorted_int (unique l) ↔ x ∈ l.
Proof. unfold sorted_int. by rewrite ordenar_perm, elem_of_unique. Qed.

(** X10.  The filtered view is exactly the rows that meet the four
    memberships, in their order in the table: no such row is left out. *)
Theorem filtered_view_exact df sel :
  df_filtrado df sel =
    filter (λ r, ano r ∈ anos_sel sel ∧
                 senioridade r ∈ senioridades_sel sel ∧
                 contrato r ∈ contratos_sel sel ∧
                 tamanho_empresa r ∈ tamanhos_sel sel) df.
Proof. rewrite df_filtrado_filter. by apply list_filter_iff. Qed.

(** X11.  Widening the four selections never removes a row from the view. *)
Theorem filter_monotone df s s' :
  anos_sel s ⊆ anos_sel s' →
  senioridades_sel s ⊆ senioridades_sel s' →
  contratos_sel s ⊆ contratos_sel s' →
  tamanhos_sel s ⊆ tamanhos_sel s' →
  df_filtrado df s `sublist_of` df_filtrado df s'.
Proof.
  intros Ha Hs Hc Ht. rewrite !df_filtrado_filter.
  apply filter_sublist_impl. intros r _ (H1 & H2 & H3 & H4).
  split; [by apply Ha|]. split; [by apply Hs|]. split; [by apply Hc|by apply Ht].
Qed.

Lemma filter_monotone_witness :
  df_filtrado tabela
    {| anos_sel := [2023%Z]; senioridades_sel := [py "senior"];
       contratos_sel := [py "integral"]; tamanhos_sel := [py "grande"] |}
  `sublist_of`
  df_filtrado tabela
    {| anos_sel := [2022%Z; 2023%Z]; senioridades_sel := [py "senior"];
       contratos_sel := [py "integral"]; tamanhos_sel := [py "grande"] |}.
Proof.
  apply filter_monotone; simpl; intros x Hx.
  - apply elem_of_cons. right. exact Hx.
  - exact Hx.
  - exact Hx.
  - exact Hx.
Defined.

(** X12.  Two filter passes can be applied in either order. *)
Theorem filter_commutes df s1 s2 :
  df_filtrado (df_filtrado df s1) s2 = df_filtrado (df_filtrado df s2) s1.
Proof.
  rewrite !df_filtrado_filter, !list_filter_filter.
  apply list_filter_iff. intros r. tauto.
Qed.

(** X13.  Only the values of a selection count, not their order or their
    repetition: two selections with the same values give the same view. *)
Theorem filter_selection_as_set df s s' :
  (∀ x, x ∈ anos_sel s ↔ x ∈ anos_sel s') →
  (∀ x, x ∈ senioridades_sel s ↔ x ∈ senioridades_sel s') →
  (∀ x, x ∈ contratos_sel s ↔ x ∈ contratos_sel s') →
  (∀ x, x ∈ tamanhos_sel s ↔ x ∈ tamanhos_sel s') →
  df_filtrado df s = df_filtrado df s'.
Proof.
  intros Ha Hs Hc Ht. rewrite !df_filtrado_filter.
  apply list_filter_iff. intros r. unfold passa. by rewrite Ha, Hs, Hc, Ht.
Qed.

Lemma filter_selection_as_set_witness :
  df_filtrado tabela
    {| anos_sel := [2023%Z; 2024%Z]; senioridades_sel := [py "senior"];
       contratos_sel := [py "integral"]; tamanhos_sel := [py "grande"] |} =
  df_filtrado tabela
    {| anos_sel := [2024%Z; 2023%Z; 2024%Z]; senioridades_sel := [py "senior"];
       contratos_sel := [py "integral"]; tamanhos_sel := [py "grande"] |}.
Proof.
  apply filter_selection_as_set; simpl; intros x; [|reflexivity..].
  rewrite !elem_of_cons, !elem_of_nil. tauto.
Defined.

(** X14.  With the default selection, every option of every multiselect
    chosen, the view is the whole table. *)
Theorem default_selection_whole_table df :
  df_filtrado df (selecao_padrao df) = df.
Proof.
  rewrite df_filtrado_filter.
  assert (Forall (passa (selecao_padrao df)) df) as Hall.
  { apply Forall_forall. intros r Hr. unfold passa, selecao_padrao; simpl.
    unfold anos, senioridades, contratos, tamanhos.
    rewrite elem_of_sorted_int, !elem_of_sorted_str.
    repeat split; by apply list_elem_of_fmap_2. }
  by apply filter_Forall_id.
Qed.

(** X15.  Each multiselect offers exactly the values present in its column,
    each once, in ascending order. *)
Theorem sidebar_options df :
  (NoDup (anos df) ∧ Sorted Z.le (anos df) ∧
   ∀ x, x ∈ anos df ↔ x ∈ ano <$> df) ∧
  (NoDup (senioridades df) ∧
   Sorted (λ a b, PyStr.compare a b ≠ Gt) (senioridades df) ∧
   ∀ x, x ∈ senioridades df ↔ x ∈ senioridade <$> df) ∧
  (NoDup (contratos df) ∧
   Sorted (λ a b, PyStr.compare a b ≠ Gt) (contratos df) ∧
   ∀ x, x ∈ contratos df ↔ x ∈ contrato <$> df) ∧
  (NoDup (tamanhos df) ∧
   Sorted (λ a b, PyStr.compare a b ≠ Gt) (tamanhos df) ∧
   ∀ x, x ∈ tamanhos df ↔ x ∈ tamanho_empresa <$> df).
Proof.
  assert (∀ l, NoDup (sorted_str (unique l)) ∧
               Sorted (λ a b, PyStr.compare a b ≠ Gt) (sorted_str (unique l)) ∧
               ∀ x, x ∈ sorted_str (unique l) ↔ x ∈ l) as Hstr.
  { intros l. split; [|split].
    - unfold sorted_str. rewrite ordenar_perm. apply NoDup_unique.
    - eapply Sorted_impl; [|apply (ordenar_sorted str_leb), str_leb_total].
      intros a b. unfold str_leb. by destruct (PyStr.compare a b).
    - apply elem_of_sorted_str. }
  split; [|by repeat split; apply Hstr].
  split; [|split].
  - unfold anos, sorted_int. rewrite ordenar_perm. apply NoDup_unique.
  - eapply Sorted_impl; [|apply (ordenar_sorted Z.leb), Z_leb_total].
    intros a b. apply Z.leb_le.
  - apply elem_of_sorted_int.
Qed.

(** ** More on the aggregates *)

Lemma isnan_f64_maximum x y :
  isnan x = false → isnan y = false → isnan (f64_maximum x y) = false.
Proof. intros Hx Hy. unfold f64_maximum. by destruct (PrimFloat.leb y x). Qed.

Lemma leb_f64_maximum x y :
  isnan x = false → isnan y = false →
  PrimFloat.leb x (f64_maximum x y) = true ∧
  PrimFloat.leb y (f64_maximum x y) = true.
Proof.
  intros Hx Hy. unfold f64_maximum. destruct (PrimFloat.leb y x) eqn:E.
  - split; [by apply leb_refl|done].
  - split; [by apply leb_total|by apply leb_refl].
Qed.

Lemma foldl_f64_maximum x l :
  Forall (λ y, isnan y = false) (x :: l) →
  foldl f64_maximum x l ∈ x :: l ∧
  Forall (λ y, PrimFloat.leb y (foldl f64_maximum x l) = true) (x :: l).
Proof.
  revert x. induction l as [|y l IH]; intros x Hall; simpl.
  - apply Forall_cons in Hall as [Hx _]. split; [left|].
    constructor; [by apply leb_refl|constructor].
  - apply Forall_cons in Hall as [Hx Hall]. apply Forall_cons in Hall as [Hy Hall].
    destruct (IH (f64_maximum x y)) as [Hin Hle].
    { constructor; [by apply isnan_f64_maximum|done]. }
    apply Forall_cons in Hle as [Hm Hle].
    destruct (leb_f64_maximum x y Hx Hy) as [Hxm Hym].
    split.
    + apply elem_of_cons in Hin as [->|Hin]; [|by do 2 right].
      unfold f64_maximum. destruct (PrimFloat.leb y x); [left|right; left].
    + constructor; [by eapply leb_trans|]. constructor; [by eapply leb_trans|done].
Qed.

(** [Series.max()]: NaN when no cell holds a number; otherwise a number of
    the column that no number of the column exceeds. *)
Lemma series_max_spec l :
  (Forall (λ x, isnan x = true) l → series_max l = nan) ∧
  (∀ x, x ∈ l → isnan x = false →
        series_max l ∈ l ∧ isnan (series_max l) = false ∧
        PrimFloat.leb x (series_max l) = true).
Proof.
  unfold series_max. split.
  - intros Hall. rewrite (filter_none (λ x, isnan x = false) l); [done|].
    eapply Forall_impl; [exact Hall|]. intros x Hx. by rewrite Hx.
  - intros x Hx Hval.
    assert (x ∈ filter (λ x, isnan x = false) l) as Hf
      by (by apply list_elem_of_filter).
    destruct (filter (λ x, isnan x = false) l) as [|z zs];
      [by apply not_elem_of_nil in Hf|]. clear z zs Hf.
    set (f := λ v, if isnan v then neg_infinity else v).
    assert (Forall (λ y, isnan y = false) (f <$> l)) as Hclean.
    { apply Forall_fmap, Forall_forall. intros v _. unfold f. simpl.
      by destruct (isnan v) eqn:E. }
    assert (f x ∈ f <$> l) as Hfx by (by apply list_elem_of_fmap_2).
    destruct (f <$> l) as [|y ys] eqn:El; [by apply not_elem_of_nil in Hfx|].
    destruct (foldl_f64_maximum y ys Hclean) as [Hin Hle].
    set (r := foldl f64_maximum y ys) in *.
    rewrite Forall_forall in Hle. pose proof (Hle _ Hfx) as Hxr.
    unfold f in Hxr at 1. rewrite Hval in Hxr.
    split; [|split; [by apply leb_isnan in Hxr as [_ ?]|done]].
    rewrite <-El in Hin. apply list_elem_of_fmap in Hin as (v & Hr & Hv).
    unfold f in Hr. destruct (isnan v) eqn:Ev; [|by rewrite Hr].
    rewrite Hr in Hxr. apply leb_neg_infinity in Hxr. by rewrite Hr, <-Hxr.
Qed.

Lemma StronglySorted_sublist {A} (R : relation A) l1 l2 :
  l1 `sublist_of` l2 → StronglySorted R l2 → StronglySorted R l1.
Proof.
  induction 1 as [|x l1 l2 Hsub IH|x l1 l2 Hsub IH]; intros Hs; [done|..].
  - apply StronglySorted_cons in Hs as [Hall Hs].
    apply StronglySorted_cons. split; [|by apply IH].
    apply Forall_forall. intros y Hy. rewrite Forall_forall in Hall.
    apply Hall. by eapply elem_of_sublist.
  - apply StronglySorted_cons in Hs as [_ Hs]. by apply IH.
Qed.

Lemma dobrar_count (n : nat) (xs : list unit) :
  dobrar (λ _, 1) (λ _ n, S n) (Some n) xs = Some (n + length xs).
Proof.
  revert n. induction xs as [|x xs IH]; intros n; simpl.
  - f_equal. lia.
  - change (dobrar (λ _ : unit, 1) (λ _ n, S n) (Some (S n)) xs = Some (n + S (length xs))).
    rewrite IH. f_equal. lia.
Qed.

Lemma valores_unit k (col : list pystr) :
  length (valores k ((λ k, (k, tt)) <$> col)) = ocorrencias k col.
Proof.
  unfold ocorrencias. induction col as [|x col IH]; [done|].
  rewrite fmap_cons, valores_cons, filter_cons.
  destruct (decide (x = k)); simpl; by rewrite IH.
Qed.

Lemma ocorrencias_pos k (col : list pystr) : 0 < ocorrencias k col ↔ k ∈ col.
Proof.
  unfold ocorrencias. split.
  - destruct (filter (λ x, x = k) col) as [|x l] eqn:E; simpl; [lia|]. intros _.
    assert (x ∈ filter (λ x, x = k) col) as [-> ?]%list_elem_of_filter
      by (rewrite E; left). done.
  - intros Hk. assert (k ∈ filter (λ x, x = k) col) as Hin
      by (by apply list_elem_of_filter).
    destruct (filter (λ x, x = k) col); [by apply not_elem_of_nil in Hin|simpl; lia].
Qed.

Lemma contagens_elem_of col k n :
  (k, n) ∈ contagens col ↔ n = ocorrencias k col ∧ k ∈ col.
Proof.
  unfold contagens.
  rewrite elem_of_list_to_map by apply sorted_keys_NoDup, agregar_sorted.
  rewrite agregar_lookup, <-ocorrencias_pos, <-valores_unit.
  destruct (valores k ((λ k, (k, tt)) <$> col)) as [|x xs]; simpl.
  - split; [done|lia].
  - change (dobrar (λ _ : unit, 1) (λ _ n, S n) (Some 1) xs = Some n ↔
            n = S (length xs) ∧ 0 < S (length xs)).
    rewrite dobrar_count. split; [intros [= <-]; lia|intros [-> _]; done].
Qed.

Lemma foldr_max_upper (l : list nat) n : n ∈ l → n ≤ foldr Nat.max 0 l.
Proof.
  induction l as [|m l IH]; [by intros ?%elem_of_nil|].
  intros [->|Hin]%elem_of_cons; simpl; [lia|]. specialize (IH Hin). lia.
Qed.

(** X16.  The page is computed for every view: no aggregate raises, and the
    table shown is the first [MAX_LINHAS_TABELA] rows of the view. *)
Theorem page_always_renders np_sum df :
  ∃ pg, renderizar np_sum df = Ok pg ∧
        pg_tabela pg `prefix_of` df ∧
        length (pg_tabela pg) = length df `min` 1000.
Proof.
  unfold renderizar, metricas. destruct df as [|r df].
  - eexists. split; [reflexivity|]. done.
  - destruct (mode (cargo <$> r :: df)) as [|c cs] eqn:Hm.
    + by apply mode_nonempty in Hm.
    + eexists. split; [reflexivity|]. cbn [pg_tabela].
      split; [apply prefix_take|]. rewrite length_take. unfold MAX_LINHAS_TABELA. lia.
Qed.

(** X17.  On a non-empty view the count is the number of rows; the maximum
    salary is NaN when no row has a salary, and otherwise it is a salary of
    the view, not NaN, that no salary of the view exceeds. *)
Theorem kpis_count_and_max np_sum df :
  df ≠ [] →
  ∃ k, metricas np_sum df = Ok k ∧
       total k = length df ∧
       (Forall (λ x, isnan x = true) (usd <$> df) → salario_max k = nan) ∧
       (∀ x, x ∈ usd <$> df → isnan x = false →
             salario_max k ∈ usd <$> df ∧
             isnan (salario_max k) = false ∧
             PrimFloat.leb x (salario_max k) = true).
Proof.
  intros Hne. unfold metricas. destruct df as [|r0 df0] eqn:Hdf; [done|].
  rewrite <-Hdf. rewrite <-Hdf in Hne. clear r0 df0 Hdf.
  destruct (mode (cargo <$> df)) as [|c cs] eqn:Hm.
  { apply mode_nonempty in Hm; [done|]. by intros ?%fmap_nil_inv. }
  eexists. split; [reflexivity|]. split; [done|]. apply series_max_spec.
Qed.

Lemma kpis_count_and_max_witness :
  ∃ k, metricas soma_em_ordem tabela = Ok k ∧
       total k = length tabela ∧
       (Forall (λ x, isnan x = true) (usd <$> tabela) → salario_max k = nan) ∧
       (∀ x, x ∈ usd <$> tabela → isnan x = false →
             salario_max k ∈ usd <$> tabela ∧
             isnan (salario_max k) = false ∧
             PrimFloat.leb x (salario_max k) = true).
Proof. apply kpis_count_and_max. discriminate. Defined.

(** X18.  On a non-empty view the most frequent role shown is a role of the
    view that no role outnumbers, and among the roles that tie with it, it is
    the first in string order. *)
Theorem cargo_freq_most_frequent np_sum df :
  df ≠ [] →
  ∃ k, metricas np_sum df = Ok k ∧
       cargo_freq k ∈ cargo <$> df ∧
       ∀ c, ocorrencias c (cargo <$> df) ≤ ocorrencias (cargo_freq k) (cargo <$> df) ∧
            (ocorrencias c (cargo <$> df) = ocorrencias (cargo_freq k) (cargo <$> df) →
             ¬ str_lt c (cargo_freq k)).
Proof.
  intros Hne. unfold metricas. destruct df as [|r0 df0] eqn:Hdf; [done|].
  rewrite <-Hdf. rewrite <-Hdf in Hne. clear r0 df0 Hdf.
  set (col := cargo <$> df).
  assert (col ≠ []) as Hcol by (by intros ?%fmap_nil_inv).
  pose proof (mode_nonempty col Hcol) as Hmode.
  unfold mode in *. set (cs := contagens col) in *.
  set (mx := foldr Nat.max 0 cs.*2) in *.
  assert (StronglySorted str_lt (filter (λ kn : pystr * nat, kn.2 = mx) cs).*1) as Hs.
  { apply (StronglySorted_sublist _ _ (cs.*1)).
    - apply fmap_sublist, sublist_filter.
    - apply Sorted_StronglySorted; [exact str_lt_trans|apply agregar_sorted]. }
  assert (∀ c, c ∈ (filter (λ kn : pystr * nat, kn.2 = mx) cs).*1 ↔
               c ∈ col ∧ ocorrencias c col = mx) as Hmem.
  { intros c. rewrite (list_elem_of_fmap fst). split.
    - intros ([c' n] & -> & [Hn Hin]%list_elem_of_filter). simpl in *.
      apply contagens_elem_of in Hin as [-> ?]. done.
    - intros [Hc Hocc]. exists (c, mx). split; [done|].
      apply list_elem_of_filter. split; [done|]. apply contagens_elem_of. done. }
  destruct ((filter (λ kn : pystr * nat, kn.2 = mx) cs).*1) as [|f rest] eqn:E; [done|].
  eexists. split; [reflexivity|]. simpl.
  destruct (proj1 (Hmem f)) as [Hf Hfocc]; [left|].
  split; [done|]. intros c. rewrite Hfocc.
  assert (ocorrencias c col ≤ mx) as Hle.
  { destruct (decide (c ∈ col)) as [Hc|Hc].
    - apply foldr_max_upper, (list_elem_of_fmap snd).
      exists (c, ocorrencias c col). split; [done|]. by apply contagens_elem_of.
    - apply ocorrencias_pos in Hf. rewrite Hfocc in Hf.
      destruct (ocorrencias c col) eqn:Ec; [lia|].
      destruct Hc. apply ocorrencias_pos. lia. }
  split; [done|]. intros Heq Hlt.
  assert (c ∈ f :: rest) as [->|Hin]%elem_of_cons.
  { apply Hmem. split; [|done]. apply ocorrencias_pos.
    apply ocorrencias_pos in Hf. lia. }
  - by apply str_lt_irrefl in Hlt.
  - apply StronglySorted_cons in Hs as [Hall _]. rewrite Forall_forall in Hall.
    apply (str_lt_irrefl c). eapply compare_lt_trans; [done|]. by apply Hall.
Qed.

Lemma cargo_freq_most_frequent_witness :
  ∃ k, metricas soma_em_ordem tabela = Ok k ∧
       cargo_freq k ∈ cargo <$> tabela ∧
       ∀ c, ocorrencias c (cargo <$> tabela) ≤ ocorrencias (cargo_freq k) (cargo <$> tabela) ∧
            (ocorrencias c (cargo <$> tabela) = ocorrencias (cargo_freq k) (cargo <$> tabela) →
             ¬ str_lt c (cargo_freq k)).
Proof. apply cargo_freq_most_frequent. discriminate. Defined.

(** ** Counting by value *)

Lemma contar_keys k cs :
  (contar k cs).*1 = if decide (k ∈ cs.*1) then cs.*1 else cs.*1 ++ [k].
Proof.
  induction cs as [|[k1 n] cs IH].
  - by rewrite decide_False by apply not_elem_of_nil.
  - cbn [contar]. rewrite (fmap_cons fst (k1, n) cs). cbn [fst].
    destruct (decide (k = k1)) as [->|Hne].
    + rewrite fmap_cons. cbn [fst]. by rewrite decide_True by left.
    + rewrite fmap_cons, IH. cbn [fst].
      destruct (decide (k ∈ cs.*1)) as [Hin|Hin].
      * by rewrite decide_True by (by right).
      * rewrite decide_False; [done|]. by intros [?|?]%elem_of_cons.
Qed.

Lemma contar_sum k cs :
  sum_list (contar k cs).*2 = S (sum_list cs.*2).
Proof.
  induction cs as [|[k1 n] cs IH]; [done|].
  cbn [contar]. destruct (decide (k = k1)); [done|].
  rewrite !fmap_cons. cbn [snd]. simpl sum_list_with. rewrite IH. unfold id. lia.
Qed.

Lemma contar_lookup k cs k' :
  (list_to_map (contar k cs) : gmap pystr nat) !! k' =
    if decide (k' = k)
    then Some (S (default 0 ((list_to_map cs : gmap pystr nat) !! k)))
    else (list_to_map cs : gmap pystr nat) !! k'.
Proof.
  induction cs as [|[k1 n] cs IH]; simpl.
  - rewrite lookup_insert, lookup_empty. repeat case_decide; by simplify_eq.
  - destruct (decide (k = k1)) as [->|Hne]; simpl.
    + rewrite !lookup_insert. repeat case_decide; by simplify_eq.
    + rewrite !lookup_insert, IH. repeat case_decide; by simplify_eq.
Qed.

Lemma foldl_contar acc col :
  NoDup acc.*1 →
  let r := foldl (λ cs k, contar k cs) acc col in
  NoDup r.*1 ∧
  sum_list r.*2 = sum_list acc.*2 + length col ∧
  ∀ k, default 0 ((list_to_map r : gmap pystr nat) !! k) =
         default 0 ((list_to_map acc : gmap pystr nat) !! k) + ocorrencias k col ∧
       (is_Some ((list_to_map r : gmap pystr nat) !! k) ↔
        is_Some ((list_to_map acc : gmap pystr nat) !! k) ∨ k ∈ col).
Proof.
  revert acc. induction col as [|x col IH]; intros acc Hnd; simpl.
  - split; [done|]. split; [lia|]. intros k. unfold ocorrencias. simpl.
    split; [lia|]. rewrite elem_of_nil. tauto.
  - destruct (IH (contar x acc)) as (H1 & H2 & H3).
    { rewrite contar_keys. case_decide; [done|].
      apply NoDup_app. split; [done|]. split; [|apply NoDup_singleton].
      by intros y Hy ->%list_elem_of_singleton. }
    split; [done|]. split; [rewrite H2, contar_sum; lia|].
    intros k. destruct (H3 k) as [H4 H5]. rewrite H4, H5, contar_lookup.
    unfold ocorrencias. rewrite filter_cons, elem_of_cons.
    destruct (decide (k = x)) as [->|Hne].
    + rewrite decide_True by done. simpl. split; [lia|]. naive_solver.
    + rewrite decide_False by done. split; [done|]. naive_solver.
Qed.

(** X19.  The work-type chart has one line per distinct work type of the
    view, with the number of rows that hold it, in descending order of that
    number; the numbers add up to the number of rows. *)
Theorem remoto_contagem_spec df :
  match remoto_contagem df with
  | None => df = []
  | Some t =>
      df ≠ [] ∧
      NoDup t.*1 ∧
      (∀ k n, (k, n) ∈ t ↔ k ∈ remoto <$> df ∧ n = ocorrencias k (remoto <$> df)) ∧
      Sorted (λ a b, b.2 ≤ a.2) t ∧
      sum_list t.*2 = length df
  end.
Proof.
  unfold remoto_contagem. destruct df as [|r0 df0] eqn:Hdf; [done|].
  rewrite <-Hdf. assert (df ≠ []) as Hne by (by rewrite Hdf). clear r0 df0 Hdf.
  unfold value_counts. set (col := remoto <$> df).
  destruct (foldl_contar [] col) as (Hnd & Hsum & Hl); [constructor|].
  set (r := foldl (λ cs k, contar k cs) [] col) in *.
  pose proof (ordenar_perm (λ a b : pystr * nat, b.2 <=? a.2) r) as Hperm.
  split; [done|]. split; [by rewrite Hperm|]. split; [|split].
  - intros k n. rewrite Hperm, elem_of_list_to_map by done.
    destruct (Hl k) as [Hv Hs]. rewrite list_to_map_nil, lookup_empty in Hv, Hs.
    simpl in Hv.
    split.
    + intros Hk. rewrite Hk in Hv, Hs. simpl in Hv. split; [|done].
      destruct (proj1 Hs) as [[? [=]]|?]; [by eexists|done].
    + intros [Hk ->]. destruct (proj2 Hs) as [m Hm]; [by right|].
      rewrite Hm in Hv. simpl in Hv. by rewrite Hm, Hv.
  - eapply Sorted_impl; [|apply (ordenar_sorted (λ a b : pystr * nat, b.2 <=? a.2))].
    + intros a b. apply Nat.leb_le.
    + intros a b. rewrite Nat.leb_gt, Nat.leb_le. lia.
  - rewrite Hperm, Hsum. unfold col. simpl. by rewrite length_fmap.
Qed.

(** ** The per-country table and the top-10 table *)

(** X20.  The per-country table is listed in ascending order of country
    code, each code once. *)
Theorem media_pais_sorted df :
  from_option (λ t, Sorted str_lt t.*1) True (media_pais df).
Proof.
  unfold media_pais. destruct (df_ds df); simpl; [done|].
  apply groupby_mean_sorted.
Qed.

(** X21.  The per-country table depends only on the Data Scientist rows:
    computing it from those rows alone gives the same table. *)
Theorem media_pais_only_data_scientists df :
  media_pais (df_ds df) = media_pais df.
Proof.
  unfold media_pais. replace (df_ds (df_ds df)) with (df_ds df); [done|].
  rewrite !df_ds_filter. symmetry. by apply list_filter_filter_l.
Qed.

(** X22.  When the view has at most ten distinct roles, the top-10 table
    lists every role of the view. *)
Theorem top_cargos_all_roles df :
  df ≠ [] →
  length (remove_dups (cargo <$> df)) ≤ 10 →
  ∃ t, top_cargos df = Some t ∧ ∀ c, c ∈ t.*1 ↔ c ∈ cargo <$> df.
Proof.
  intros Hne Hlen. unfold top_cargos. destruct df as [|r0 df0] eqn:Hdf; [done|].
  rewrite <-Hdf. rewrite <-Hdf in Hne, Hlen. clear r0 df0 Hdf.
  eexists. split; [reflexivity|]. intros c.
  set (M := groupby_mean (cargo <$> df) (usd <$> df)).
  assert (length M ≤ 10) as HM.
  { rewrite <-(length_fmap fst M). etrans; [|exact Hlen].
    apply Nat.eq_le_incl, Permutation_length.
    apply NoDup_Permutation;
      [apply sorted_keys_NoDup, groupby_mean_sorted|apply NoDup_remove_dups|].
    intros x. rewrite elem_of_remove_dups. apply groupby_cargo_keys. }
  rewrite sort_values_perm. destruct (nlargest_perm 10 M) as (d & Hd & ->).
  rewrite take_ge by (by rewrite Hd). rewrite Hd. apply groupby_cargo_keys.
Qed.

Lemma top_cargos_all_roles_witness :
  ∃ t, top_cargos tabela = Some t ∧ ∀ c, c ∈ t.*1 ↔ c ∈ cargo <$> tabela.
Proof.
  apply top_cargos_all_roles.
  - discriminate.
  - vm_compute. lia.
Defined.

(** ** Filter and page together *)

(** X23.  When one of the four multiselects is cleared, the page falls back
    to the zeros, the dash and no chart, whatever the table holds. *)
Theorem cleared_filter_page np_sum df sel :
  anos_sel sel = [] ∨ senioridades_sel sel = [] ∨
  contratos_sel sel = [] ∨ tamanhos_sel sel = [] →
  renderizar np_sum (df_filtrado df sel) = Ok pagina_vazia.
Proof. intros Hsel. by rewrite df_filtrado_nil. Qed.

Lemma cleared_filter_page_witness :
  renderizar soma_em_ordem
    (df_filtrado tabela
       {| anos_sel := []; senioridades_sel := [py "senior"];
          contratos_sel := [py "integral"]; tamanhos_sel := [py "grande"] |})
  = Ok pagina_vazia.
Proof. apply cleared_filter_page. left. reflexivity. Defined.
